(** * Go-Whisper-Client: configuration, chunk planning, silence parsing,
      transcription and result merging

    A shallow embedding of [main.go] and the properties its specification
    states about it, with further properties of the functions around
    them.

    Modelling conventions.
    - Go's [float64] is Rocq's primitive binary64 float ([PrimFloat.float]),
      so every arithmetic operation and comparison below rounds exactly as
      the compiled program does.
    - Go's [int] is the 64-bit two's complement integer of the amd64 port,
      carried as a [Z] and wrapped explicitly.
    - Go strings are byte strings ([string] of [ascii]).
    - External processes (ffmpeg, ffprobe), the transcription API, the
      clock and the decoding of JSON are explicit inputs; the file system
      is an explicit store. *)

From Stdlib Require Import ZArith List Bool Ascii String Floats Lia.
From Stdlib Require Import DecimalString DecimalN DecimalPos Sorting.Sorted.
From stdpp Require Import base gmap strings list.

Set Warnings "-inexact-float,-clear-no-such-hyp".

Local Open Scope string_scope.
Local Open Scope Z_scope.

(** ** Go's numeric types *)

Module GoNum.

Abbreviation float64 := PrimFloat.float.

Definition int_min : Z := - 2 ^ 63.
Definition int_max : Z := 2 ^ 63 - 1.

(** Two's complement wrap-around of a 64-bit [int]. *)
Definition wrap_int (z : Z) : Z := (z + 2 ^ 63) mod 2 ^ 64 - 2 ^ 63.

(** [x++] on an [int]. *)
Definition int_succ (z : Z) : Z := wrap_int (z + 1).

(** The conversion [int(x)] of a [float64]: the fraction is discarded
    (truncation towards zero).  When the value does not fit, the Go
    specification leaves the result to the implementation; amd64's
    CVTTSD2SQ yields the smallest [int]. *)
Definition int_of_float64 (x : float64) : Z :=
  match Prim2SF x with
  | S754_zero _ => 0
  | S754_finite s m e =>
      let mag := Z.shiftl (Z.pos m) e in
      let v := if s then - mag else mag in
      if (int_min <=? v) && (v <=? int_max) then v else int_min
  | S754_infinity _ | S754_nan => int_min
  end.

(** The conversion [float64(n)] of an [int], rounded to nearest even. *)
Definition float64_of_int (n : Z) : float64 :=
  SF2Prim (binary_normalize prec emax n 0 false).

(** Comparisons as propositions. *)
Definition flt (x y : float64) : Prop := PrimFloat.ltb x y = true.
Definition fle (x y : float64) : Prop := PrimFloat.leb x y = true.

(** Signs of the values of the IEEE 754 specification: greater than zero,
    and not below zero (a zero of either sign included). *)
Definition SFpos (x : spec_float) : Prop :=
  match x with
  | S754_finite false _ _ | S754_infinity false => True
  | _ => False
  end.

Definition SFnonneg (x : spec_float) : Prop :=
  match x with
  | S754_zero _ | S754_finite false _ _ | S754_infinity false => True
  | _ => False
  end.

End GoNum.
Export GoNum.

(** ** The functions of package [strings] and [fmt] the program calls *)

Module GoStrings.

Definition newline : string := String "010"%char EmptyString.

Fixpoint HasPrefix (s prefix : string) : bool :=
  match prefix, s with
  | EmptyString, _ => true
  | String p prefix', String c s' => Ascii.eqb p c && HasPrefix s' prefix'
  | String _ _, EmptyString => false
  end.

Fixpoint Contains (s substr : string) : bool :=
  HasPrefix s substr ||
  match s with
  | EmptyString => false
  | String _ s' => Contains s' substr
  end.

Definition HasSuffix (s suffix : string) : bool :=
  let n := String.length s in
  let k := String.length suffix in
  (k <=? n)%nat && String.eqb (substring (n - k) k s) suffix.

(** [strings.Split(s, sep)] for a non-empty [sep]: cut at every
    occurrence of [sep], scanning left to right without overlap.
    [skip] counts the bytes of a separator still to be dropped and
    [cur] holds the bytes of the current field. *)
Fixpoint split_go (sep : string) (s : string) (skip : nat) (cur : string)
  : list string :=
  match s with
  | EmptyString => [cur]
  | String c s' =>
      match skip with
      | S k => split_go sep s' k cur
      | O =>
          if HasPrefix s sep
          then cur :: split_go sep s' (String.length sep - 1) ""
          else split_go sep s' O (cur ++ String c "")
      end
  end.

Definition Split (s sep : string) : list string := split_go sep s O "".

(** The ASCII white space of [unicode.IsSpace]. *)
Definition isSpace (c : ascii) : bool :=
  let n := nat_of_ascii c in
  ((9 <=? n)%nat && (n <=? 13)%nat) || (n =? 32)%nat.

Fixpoint TrimLeft (s : string) : string :=
  match s with
  | String c s' => if isSpace c then TrimLeft s' else s
  | EmptyString => EmptyString
  end.

Fixpoint TrimRight (s : string) : string :=
  match s with
  | String c s' =>
      match TrimRight s' with
      | EmptyString => if isSpace c then EmptyString else String c EmptyString
      | t => String c t
      end
  | EmptyString => EmptyString
  end.

Definition TrimSpace (s : string) : string := TrimRight (TrimLeft s).

(** [strings.TrimSuffix(s, suffix)]. *)
Definition TrimSuffix (s suffix : string) : string :=
  if HasSuffix s suffix
  then substring 0 (String.length s - String.length suffix) s
  else s.

(** [strings.Join(elems, sep)]. *)
Fixpoint Join (elems : list string) (sep : string) : string :=
  match elems with
  | [] => ""
  | [e] => e
  | e :: rest => e ++ sep ++ Join rest sep
  end.

(** [strings.ToLower] on a string of ASCII bytes: the letters [A] to [Z]
    are mapped to [a] to [z].  Bytes from 128 on are left as they are
    here, where Go maps the runes they encode: the model is the function
    on the strings for which [isASCII] holds. *)
Definition toLowerByte (c : ascii) : ascii :=
  let n := nat_of_ascii c in
  if (65 <=? n)%nat && (n <=? 90)%nat then ascii_of_nat (n + 32) else c.

Fixpoint ToLower (s : string) : string :=
  match s with
  | EmptyString => EmptyString
  | String c s' => String (toLowerByte c) (ToLower s')
  end.

Fixpoint isASCII (s : string) : bool :=
  match s with
  | EmptyString => true
  | String c s' => (nat_of_ascii c <? 128)%nat && isASCII s'
  end.

End GoStrings.

Module GoFmt.

(** The verb [%d]: a decimal numeral, with a minus sign when negative. *)
Definition digits_of (n : Z) : string :=
  NilZero.string_of_uint (N.to_uint (Z.to_N (Z.abs n))).

Fixpoint zeros (k : nat) : string :=
  match k with
  | O => ""
  | S k' => String "0"%char (zeros k')
  end.

Definition fmt_d (n : Z) : string :=
  if n <? 0 then "-" ++ digits_of n else digits_of n.

(** The verb [%0wd]: padded with zeros to [w] bytes, the sign counted
    in the width and written before the padding. *)
Definition fmt_0d (w : nat) (n : Z) : string :=
  let d := digits_of n in
  if n <? 0
  then "-" ++ zeros (w - 1 - String.length d) ++ d
  else zeros (w - String.length d) ++ d.

(** *** [fmt.Sscanf(s, "%f", &t)]

    The scanner skips leading blanks, cuts the longest floating-point
    token off the input ([floatToken] of fmt/scan.go) and converts it
    with [strconv.ParseFloat]; whatever follows the token is left
    unread and is no error.  The conversion is modelled for decimal
    numerals (sign, digits, fraction, decimal exponent) and for the
    tokens [inf] and [nan]; it is correctly rounded, and a value too
    large for a [float64] is a range error.  Tokens with a hexadecimal
    mantissa, a binary exponent or [_] separators are outside the
    modelled fragment and are reported as errors here. *)

Fixpoint in_set (c : ascii) (set : string) : bool :=
  match set with
  | EmptyString => false
  | String d set' => Ascii.eqb c d || in_set c set'
  end.

(** [accept]: consume one byte of [rest] into [buf] when it is in [ok]. *)
Definition accept (ok : string) (st : string * string)
  : bool * (string * string) :=
  match snd st with
  | String c rest' =>
      if in_set c ok
      then (true, (fst st ++ String c "", rest')) else (false, st)
  | EmptyString => (false, st)
  end.

Fixpoint accept_all (ok : string) (rest buf : string) : string * string :=
  match rest with
  | String c rest' =>
      if in_set c ok
      then accept_all ok rest' (buf ++ String c "") else (buf, rest)
  | EmptyString => (buf, rest)
  end.

Definition decimalDigits : string := "0123456789".
Definition hexadecimalDigits : string := "0123456789aAbBcCdDeEfF".

Definition floatToken (s : string) : string :=
  let st := ("", s) in
  let '(n1, st) := accept "nN" st in
  let '(n2, st) := if n1 then accept "aA" st else (false, st) in
  let '(n3, st) := if n2 then accept "nN" st else (false, st) in
  if n3 then fst st else
  let '(_, st) := accept "+-" st in
  let '(i1, st) := accept "iI" st in
  let '(i2, st) := if i1 then accept "nN" st else (false, st) in
  let '(i3, st) := if i2 then accept "fF" st else (false, st) in
  if i3 then fst st else
  let '(z, st) := accept "0" st in
  let '(x, st) := if z then accept "xX" st else (false, st) in
  let digits := (if x then hexadecimalDigits else decimalDigits) ++ "_" in
  let exp := if x then "pP" else "eEpP" in
  let st := accept_all digits (snd st) (fst st) in
  let '(dot, st) := accept "." st in
  let st := if dot then accept_all digits (snd st) (fst st) else st in
  let '(e, st) := accept exp st in
  let st :=
    if e
    then let st := snd (accept "+-" st) in
         accept_all (decimalDigits ++ "_") (snd st) (fst st)
    else st in
  fst st.

Definition is_digit (c : ascii) : bool := in_set c decimalDigits.

Definition lower (c : ascii) : ascii :=
  let n := nat_of_ascii c in
  if (65 <=? n)%nat && (n <=? 90)%nat then ascii_of_nat (n + 32) else c.

Fixpoint to_lower (s : string) : string :=
  match s with
  | EmptyString => EmptyString
  | String c s' => String (lower c) (to_lower s')
  end.

(** A run of decimal digits: the number read so far, how many digits
    were read, and the rest of the input. *)
Fixpoint read_digits (s : string) (acc : Z) (n : nat) : Z * nat * string :=
  match s with
  | String c s' =>
      if is_digit c
      then read_digits s' (10 * acc + (Z.of_nat (nat_of_ascii c) - 48)) (S n)
      else (acc, n, s)
  | EmptyString => (acc, n, s)
  end.

Definition read_sign (s : string) : bool * string :=
  match s with
  | String "-" s' => (true, s')
  | String "+" s' => (false, s')
  | _ => (false, s)
  end.

(** The nearest [float64] to [(-1)^neg * m * 10^e], ties to even.  For a
    negative [e] the quotient is computed with 64 bits and more and a
    sticky bit, which the rounding of [binary_normalize] then sees. *)
Definition round_decimal (neg : bool) (m e : Z) : spec_float :=
  if m =? 0 then S754_zero neg else
  let sgn (z : Z) := if neg then - z else z in
  if 0 <=? e then binary_normalize prec emax (sgn (m * 10 ^ e)) 0 false
  else
    let d := 10 ^ (- e) in
    let sh := Z.max 0 (64 + Z.log2 d - Z.log2 m) in
    let q := Z.shiftl m sh / d in
    let sticky := if Z.shiftl m sh mod d =? 0 then 0 else 1 in
    binary_normalize prec emax (sgn (2 * q + sticky)) (- sh - 1) false.

Definition ParseFloat (tok : string) : option float64 :=
  let '(neg, body) := read_sign tok in
  let low := to_lower body in
  if String.eqb low "inf" || String.eqb low "infinity"
  then Some (if neg then neg_infinity else infinity)
  else if String.eqb (to_lower tok) "nan" then Some nan
  else
    let '(m1, n1, s) := read_digits body 0 0 in
    let '(m2, n2, s) :=
      match s with
      | String "." s' => read_digits s' m1 0
      | _ => (m1, O, s)
      end in
    if (n1 + n2 =? 0)%nat then None else
    let finish (e : Z) :=
      match round_decimal neg m2 (e - Z.of_nat n2) with
      | S754_infinity _ => None
      | f => Some (SF2Prim f)
      end in
    match s with
    | EmptyString => finish 0
    | String c s' =>
        if in_set c "eE" then
          let '(eneg, s') := read_sign s' in
          let '(ev, en, rest) := read_digits s' 0 0 in
          match en, rest with
          | S _, EmptyString => finish (if eneg then - ev else ev)
          | _, _ => None
          end
        else None
    end.

(** [SkipSpace] of a scanner in which newlines are not blanks: a
    carriage return before a newline is dropped, a newline is an error. *)
Fixpoint SkipSpace (s : string) : option string :=
  match s with
  | EmptyString => Some s
  | String c s' =>
      if Ascii.eqb c "010" then None
      else if GoStrings.isSpace c then SkipSpace s'
      else Some s
  end.

Definition Sscanf_f (s : string) : option float64 :=
  match SkipSpace s with
  | None | Some EmptyString => None
  | Some s' => ParseFloat (floatToken s')
  end.

End GoFmt.

(** ** The functions of package [path/filepath] the program calls

    For a system whose path separator is [/] and whose paths have no
    volume name. *)

Module GoPath.

Definition IsPathSeparator (c : ascii) : bool := Ascii.eqb c "/".

(** [filepath.Ext] and [filepath.Base] scan the path from its last byte
    backwards: [back] holds the bytes not yet seen, last first, and
    [suffix] the bytes already passed. *)

(** [for i := len(path) - 1; i >= 0 && !os.IsPathSeparator(path[i]); i--]
    of [filepath.Ext]. *)
Fixpoint ext_scan (back : list ascii) (suffix : string) : string :=
  match back with
  | [] => ""
  | c :: back' =>
      if IsPathSeparator c then ""
      else if Ascii.eqb c "." then String c suffix
      else ext_scan back' (String c suffix)
  end.

Definition Ext (path : string) : string :=
  ext_scan (List.rev (list_ascii_of_string path)) "".

(** The two loops of [filepath.Base]: trailing separators are dropped,
    then the bytes after the last separator are kept. *)
Fixpoint strip_separators (back : list ascii) : list ascii :=
  match back with
  | c :: back' => if IsPathSeparator c then strip_separators back' else back
  | [] => []
  end.

Fixpoint last_element (back : list ascii) (suffix : string) : string :=
  match back with
  | [] => suffix
  | c :: back' =>
      if IsPathSeparator c then suffix
      else last_element back' (String c suffix)
  end.

Definition Base (path : string) : string :=
  if String.eqb path "" then "." else
  let elem :=
    last_element (strip_separators (List.rev (list_ascii_of_string path)))
                 "" in
  if String.eqb elem "" then "/" else elem.

(** *** [filepath.Clean]

    The output buffer is held with its last byte first; [out.w] is its
    length. *)

(** [r == n || os.IsPathSeparator(path[r])], for the bytes from [r] on. *)
Definition elementEnd (rest : string) : bool :=
  match rest with
  | EmptyString => true
  | String c _ => IsPathSeparator c
  end.

(** [for out.w > dotdot && !os.IsPathSeparator(out.index(out.w)) { out.w-- }],
    [last] being the byte at [out.w]. *)
Fixpoint backtrack (out : list ascii) (dotdot : nat) (last : ascii)
  : list ascii :=
  match out with
  | [] => []
  | c :: out' =>
      if (dotdot <? length out)%nat && negb (IsPathSeparator last)
      then backtrack out' dotdot c else out
  end.

(** A [..] element: the buffer is cut back to the last separator, or the
    element is kept when nothing can be cut and the path is not rooted. *)
Definition dotdotElement (rooted : bool) (out : list ascii) (dotdot : nat)
  : list ascii * nat :=
  if (dotdot <? length out)%nat then
    match out with
    | c :: out' => (backtrack out' dotdot c, dotdot)
    | [] => (out, dotdot)
    end
  else if negb rooted then
    let out := if (0 <? length out)%nat then "/"%char :: out else out in
    let out := "."%char :: "."%char :: out in
    (out, length out)
  else (out, dotdot).

(** [if rooted && out.w != 1 || !rooted && out.w != 0 { out.append(Separator) }]. *)
Definition addSeparator (rooted : bool) (out : list ascii) : list ascii :=
  if (rooted && negb (length out =? 1)%nat)
     || (negb rooted && negb (length out =? 0)%nat)
  then "/"%char :: out else out.

(** The loop [for r < n] on the bytes from [r] on; [inElem] holds while
    the bytes of a path element are being copied.  The result is the
    buffer and [dotdot]. *)
Fixpoint clean_scan (rooted : bool) (path : string) (inElem : bool)
  (out : list ascii) (dotdot : nat) : list ascii * nat :=
  match path with
  | EmptyString => (out, dotdot)
  | String c rest =>
      if IsPathSeparator c then clean_scan rooted rest false out dotdot
      else if inElem then clean_scan rooted rest true (c :: out) dotdot
      else if Ascii.eqb c "." && elementEnd rest
      then clean_scan rooted rest false out dotdot
      else
        let element :=
          clean_scan rooted rest true (c :: addSeparator rooted out) dotdot in
        match rest with
        | String d rest' =>
            if Ascii.eqb c "." && Ascii.eqb d "." && elementEnd rest'
            then
              let '(out, dotdot) := dotdotElement rooted out dotdot in
              clean_scan rooted rest' false out dotdot
            else element
        | EmptyString => element
        end
  end.

Definition Clean (path : string) : string :=
  match path with
  | EmptyString => "."
  | String c rest =>
      let rooted := IsPathSeparator c in
      let out :=
        if rooted
        then fst (clean_scan rooted rest false ["/"%char] 1)
        else fst (clean_scan rooted path false [] 0) in
      match out with
      | [] => "."
      | _ => string_of_list_ascii (List.rev out)
      end
  end.

(** [filepath.Join(elem...)]: the elements from the first non-empty one
    on, joined with separators and cleaned. *)
Fixpoint Join (elem : list string) : string :=
  match elem with
  | [] => ""
  | e :: rest =>
      if String.eqb e "" then Join rest
      else Clean (GoStrings.Join elem "/")
  end.

End GoPath.

(** ** Data model *)

(** [Segment]: a time-coded span of recognised text. *)
Record Segment := mkSegment {
  ID : Z;
  Start : float64;
  End_ : float64;
  SegText : string
}.

(** [TranscriptionResult]. *)
Record TranscriptionResult := mkResult {
  Text : string;
  Language : string;
  Segments : list Segment;
  Duration : float64
}.

(** [SilencePoint]: one detected silence interval. *)
Record SilencePoint := mkSilence {
  SilStart : float64;
  SilEnd : float64
}.

(** [AudioChunk]: a chunk file and where it starts in the original audio. *)
Record AudioChunk := mkChunk {
  Path : string;
  StartOffset : float64
}.

Arguments mkSegment _%_Z _%_float _%_float _%_string.
Arguments mkResult _%_string _%_string _%_list _%_float.
Arguments mkSilence _%_float _%_float.
Arguments mkChunk _%_string _%_float.

(** ** formatSRTTime *)

Definition formatSRTTime (seconds : float64) : string :=
  let hours := int_of_float64 (seconds / 3600)%float in
  let minutes :=
    int_of_float64 ((seconds - float64_of_int hours * 3600) / 60)%float in
  let secs :=
    int_of_float64 (seconds - float64_of_int hours * 3600
                            - float64_of_int minutes * 60)%float in
  let millis :=
    int_of_float64 ((seconds - float64_of_int hours * 3600
                             - float64_of_int minutes * 60
                             - float64_of_int secs) * 1000)%float in
  GoFmt.fmt_0d 2 hours ++ ":" ++ GoFmt.fmt_0d 2 minutes ++ ":" ++
  GoFmt.fmt_0d 2 secs ++ "," ++ GoFmt.fmt_0d 3 millis.


(** ** SilenceEventParser: parseSilenceTime and detectSilence

    [fmt.Sscanf] is a library function: the parser is stated over any
    scanner [Sscanf_f], with [None] for a scan that returns an error;
    [GoFmt.Sscanf_f] is the one used to run it. *)

Section SilenceEventParser.

Variable Sscanf_f : string -> option float64.

(** [parseSilenceTime]: the text before the first [|], trimmed, scanned
    with [%f].  [None] stands for a non-nil [err]. *)
Definition parseSilenceTime (s : string) : option float64 :=
  let parts := GoStrings.Split s "|" in
  let s := GoStrings.TrimSpace (hd "" parts) in
  Sscanf_f s.

(** The variables of the scanning loop of [detectSilence]. *)
Record scanState := mkScan {
  currentStart : float64;
  points : list SilencePoint
}.

(** One iteration of [for _, line := range lines]. *)
Definition scanLine (st : scanState) (line : string) : scanState :=
  if GoStrings.Contains line "silence_start:" then
    match GoStrings.Split line "silence_start:" with
    | _ :: part :: _ =>
        match parseSilenceTime (GoStrings.TrimSpace part) with
        | Some start => mkScan start (points st)
        | None => st
        end
    | _ => st
    end
  else if GoStrings.Contains line "silence_end:" then
    match GoStrings.Split line "silence_end:" with
    | _ :: part :: _ =>
        match parseSilenceTime (GoStrings.TrimSpace part) with
        | Some end_ =>
            mkScan (currentStart st)
                   (points st ++ [mkSilence (currentStart st) end_])%list
        | None => st
        end
    | _ => st
    end
  else st.

(** [var currentStart float64] and [var points []SilencePoint]. *)
Definition scanInit : scanState := mkScan 0%float [].

Definition scanLines (lines : list string) (st : scanState) : scanState :=
  fold_left scanLine lines st.

(** [detectSilence]: [output] is what [cmd.CombinedOutput()] returned,
    [None] when the command failed. *)
Definition detectSilence (output : option string)
  : option (list SilencePoint) :=
  match output with
  | None => None
  | Some out =>
      let lines := GoStrings.Split out GoStrings.newline in
      Some (points (scanLines lines scanInit))
  end.

End SilenceEventParser.

(** *** Marker lines *)

(** A line with a begin marker, and a line with an end marker that the
    scan does not take for a begin marker. *)
Definition isStartLine (line : string) : bool :=
  GoStrings.Contains line "silence_start:".

Definition isEndLine (line : string) : bool :=
  negb (GoStrings.Contains line "silence_start:")
  && GoStrings.Contains line "silence_end:".

(** The timestamp of a marker line: what follows the first [marker],
    trimmed and parsed; [None] when it does not parse. *)
Definition markerTime (Sscanf_f : string -> option float64)
  (marker line : string) : option float64 :=
  match GoStrings.Split line marker with
  | _ :: part :: _ => parseSilenceTime Sscanf_f (GoStrings.TrimSpace part)
  | _ => None
  end.

(** The two lines of the specification's example. *)
Definition example_output : string :=
  "silence_start: 12.34" ++ GoStrings.newline
    ++ "silence_end: 45.60 | silence_duration: 33.26".

(** ** SplitPlanner: calculateSplitTimes *)

Section SplitPlanner.

Variables totalDuration idealChunkDuration : float64.
Variable silencePoints : list SilencePoint.

(** The test of the inner loop on one silence point, for the current
    target and the smallest distance seen so far. *)
Definition inRange (currentTime minDiff : float64) (sp : SilencePoint)
  : bool :=
  let diff := (SilEnd sp - currentTime)%float in
  let diff := if (diff <? 0)%float then (- diff)%float else diff in
  (currentTime * 0.5 <? SilEnd sp)%float
  && (SilEnd sp <? currentTime * 1.5)%float
  && (diff <? minDiff)%float.

(** One iteration of [for _, sp := range silencePoints] on the pair
    [(bestTime, minDiff)]. *)
Definition pick (currentTime : float64) (st : float64 * float64)
  (sp : SilencePoint) : float64 * float64 :=
  let diff := (SilEnd sp - currentTime)%float in
  let diff := if (diff <? 0)%float then (- diff)%float else diff in
  if inRange currentTime (snd st) sp then (SilEnd sp, diff) else st.

Definition bestTimeFor (currentTime : float64) : float64 :=
  fst (fold_left (pick currentTime) silencePoints
                 (currentTime, idealChunkDuration)).

(** One iteration of the outer loop on [(currentTime, splitTimes)];
    [None] when the loop is left, by its condition or by [break]. *)
Definition splitStep (st : float64 * list float64)
  : option (float64 * list float64) :=
  let '(currentTime, splitTimes) := st in
  if (currentTime <? totalDuration)%float then
    let bestTime := bestTimeFor currentTime in
    if (totalDuration <=? bestTime)%float then None
    else Some ((bestTime + idealChunkDuration)%float,
               (splitTimes ++ [bestTime])%list)
  else None.

(** The loop state after at most [n] iterations. *)
Fixpoint splitIter (n : nat) (st : float64 * list float64)
  : float64 * list float64 :=
  match n with
  | O => st
  | S n' =>
      match splitStep st with
      | None => st
      | Some st' => splitIter n' st'
      end
  end.

(** The loop run with [fuel] iterations at most: [None] when they do
    not suffice for the loop to be left. *)
Fixpoint splitLoop (fuel : nat) (st : float64 * list float64)
  : option (list float64) :=
  match fuel with
  | O => None
  | S fuel' =>
      match splitStep st with
      | None => Some (snd st)
      | Some st' => splitLoop fuel' st'
      end
  end.

Definition calculateSplitTimes (fuel : nat) : option (list float64) :=
  splitLoop fuel (idealChunkDuration, []).

End SplitPlanner.

Arguments inRange (_ _)%_float _.
Arguments bestTimeFor _%_float _%_list _%_float.
Arguments splitStep (_ _)%_float _%_list _.
Arguments splitIter (_ _)%_float _%_list _%_nat _.
Arguments splitLoop (_ _)%_float _%_list _%_nat _.
Arguments calculateSplitTimes (_ _)%_float _%_list _%_nat.

(** *** Planned split points *)

(** A plan of split points read against its targets: every split point
    is the raw target of its iteration or the end of a silence interval
    that lies strictly between 0.5 and 1.5 times that target and is
    closer to it than the ideal chunk duration; the next target is the
    split point plus the ideal chunk duration. *)
Fixpoint planned (idealChunkDuration : float64)
  (silencePoints : list SilencePoint) (target : float64)
  (splits : list float64) : Prop :=
  match splits with
  | [] => True
  | best :: rest =>
      (best = target
       \/ exists sp, sp ∈ silencePoints /\ SilEnd sp = best
                     /\ inRange target idealChunkDuration sp = true)
      /\ planned idealChunkDuration silencePoints
           (best + idealChunkDuration)%float rest
  end.

Arguments planned _%_float _%_list _%_float _%_list.

(** The target after the split points [splits], starting from [target]. *)
Definition nextTarget (idealChunkDuration target : float64)
  (splits : list float64) : float64 :=
  match last splits with
  | Some best => (best + idealChunkDuration)%float
  | None => target
  end.

(** Silence intervals that end at the four split points of the README's
    example run. *)
Definition stall_silence : list SilencePoint :=
  [mkSilence 102 102.5; mkSilence 214.8 215.3; mkSilence 318.2 318.7;
   mkSilence 429.7 430.2].

(** The smallest distance seen so far by the inner loop never exceeds the
    ideal chunk duration. *)
Definition belowIdeal (idealChunkDuration minDiff : float64) : Prop :=
  minDiff = idealChunkDuration \/ flt minDiff idealChunkDuration.

(** The invariant of the outer loop: the split points recorded so far
    are planned, and the current target follows the last of them. *)
Definition planInv (idealChunkDuration : float64)
  (silencePoints : list SilencePoint) (st : float64 * list float64) : Prop :=
  planned idealChunkDuration silencePoints idealChunkDuration (snd st)
  /\ fst st = nextTarget idealChunkDuration idealChunkDuration (snd st).

(** ** ChunkExtractor: createAudioChunks

    The file system is the set of paths that exist.  The clock, ffprobe
    and ffmpeg are inputs: [now i] is what [time.Now().UnixNano()] returns
    when chunk [i] is named, [probe] what [getAudioDuration] returns, and
    [ffmpeg c] how the extraction command [c] ends.  A run that exits with
    success leaves its output file; a run that exits with an error may
    have written its output file, in part or in whole, or not.
    [os.Remove] removes the path it is given. *)

Record ExtractCmd := mkCmd {
  cmd_input : string;
  cmd_ss : float64;
  cmd_to : option float64;
  cmd_output : string
}.

Inductive chunkError := ErrCreateChunk | ErrCreateLastChunk.

(** How [cmd.Run()] ends: [Done] is a nil error; [Failed wrote] is an
    error, [wrote] telling whether the output file is there after it. *)
Inductive ffmpegExit := Done | Failed (wrote : bool).

Section ChunkExtractor.

Variable tempDir : string.
Variable now : nat -> Z.
Variable probe : option float64.
Variable ffmpeg : ExtractCmd -> ffmpegExit.
Variable audioPath : string.

(** [fmt.Sprintf("whisper_chunk_%d_%d.wav", time.Now().UnixNano(), i)]. *)
Definition chunkName (i : nat) : string :=
  "whisper_chunk_" ++ GoFmt.fmt_d (now i) ++ "_"
                   ++ GoFmt.fmt_d (Z.of_nat i) ++ ".wav".

(** [filepath.Join(tempDir, fmt.Sprintf("whisper_chunk_%d_%d.wav", ...))]. *)
Definition chunkPath (i : nat) : string :=
  GoPath.Join [tempDir; chunkName i].

(** The file system after a run of ffmpeg with output [path]. *)
Definition afterRun (exit : ffmpegExit) (path : string) (fs : gset string)
  : gset string :=
  match exit with
  | Done | Failed true => fs ∪ {[ path ]}
  | Failed false => fs
  end.

(** [for _, c := range chunks { os.Remove(c.Path) }]. *)
Definition removeChunks (chunks : list AudioChunk) (fs : gset string)
  : gset string :=
  fold_left (fun fs c => fs ∖ {[ Path c ]}) chunks fs.

(** [for i, endTime := range splitTimes], from index [i] on. *)
Fixpoint extractLoop (i : nat) (splitTimes : list float64)
  (startTime : float64) (chunks : list AudioChunk) (fs : gset string)
  : gset string * (chunkError + float64 * list AudioChunk) :=
  match splitTimes with
  | [] => (fs, inr (startTime, chunks))
  | endTime :: rest =>
      let path := chunkPath i in
      let exit := ffmpeg (mkCmd audioPath startTime (Some endTime) path) in
      let fs := afterRun exit path fs in
      match exit with
      | Done =>
          extractLoop (S i) rest endTime
            (chunks ++ [mkChunk path startTime])%list fs
      | Failed _ => (removeChunks chunks fs, inl ErrCreateChunk)
      end
  end.

Definition createAudioChunks (splitTimes : list float64) (fs : gset string)
  : gset string * (chunkError + list AudioChunk) :=
  let duration := default 0%float probe in
  match extractLoop 0 splitTimes 0%float [] fs with
  | (fs, inl e) => (fs, inl e)
  | (fs, inr (startTime, chunks)) =>
      if (startTime <? duration)%float then
        let path := chunkPath (length splitTimes) in
        let exit := ffmpeg (mkCmd audioPath startTime None path) in
        let fs := afterRun exit path fs in
        match exit with
        | Done => (fs, inr (chunks ++ [mkChunk path startTime])%list)
        | Failed _ => (removeChunks chunks fs, inl ErrCreateLastChunk)
        end
      else (fs, inr chunks)
  end.

End ChunkExtractor.

(** *** The chunks a call of [createAudioChunks] asks for *)

Section RequestedChunks.

Variable tempDir : string.
Variable now : nat -> Z.
Variable probe : option float64.
Variable audioPath : string.
Variable splitTimes : list float64.

(** Where chunk [i] starts: at 0, or at the split point before it. *)
Definition startOfChunk (i : nat) : float64 :=
  match i with
  | O => 0%float
  | S j => default 0%float (splitTimes !! j)
  end.

(** The extraction command of chunk [i]; the last chunk has no [-to]. *)
Definition extractCmd (i : nat) : ExtractCmd :=
  mkCmd audioPath (startOfChunk i) (splitTimes !! i) (chunkPath tempDir now i).

(** The number of chunks asked for: one per split point, and one more
    when the last split point lies before the probed duration. *)
Definition requested : nat :=
  length splitTimes
  + (if (startOfChunk (length splitTimes) <? default 0 probe)%float
     then 1 else 0).

(** Chunk [i] as it is returned. *)
Definition chunkOf (i : nat) : AudioChunk :=
  mkChunk (chunkPath tempDir now i) (startOfChunk i).

(** The files of the chunks before [k]. *)
Definition chunkFiles (k : nat) : gset string :=
  list_to_set (chunkPath tempDir now <$> seq 0 k).

End RequestedChunks.

(** An example run: split points 95 and 205 of a recording of 300
    seconds, the clock advancing by one millisecond per chunk, and an
    ffmpeg that fails on the chunk that starts at 95 after it has written
    its output file. *)
Definition example_now (i : nat) : Z :=
  1700000000000000000 + 1000000 * Z.of_nat i.

Definition example_ffmpeg (c : ExtractCmd) : ffmpegExit :=
  if (cmd_ss c =? 95)%float then Failed true else Done.

(** ** ResultMerger: mergeResults *)

(** The variables of the merging loop. *)
Record mergeState := mkMerge {
  mLanguage : string;
  mSegments : list Segment;
  segmentID : Z;
  totalText : string
}.

(** One iteration of [for _, seg := range result.Segments]. *)
Definition appendSegment (offset : float64) (acc : list Segment * Z)
  (seg : Segment) : list Segment * Z :=
  ((fst acc ++ [mkSegment (snd acc) (Start seg + offset)%float
                          (End_ seg + offset)%float (SegText seg)])%list,
   int_succ (snd acc)).

(** One iteration of [for i, result := range results]. *)
Definition mergeOne (i : nat) (result : TranscriptionResult)
  (chunk : AudioChunk) (st : mergeState) : mergeState :=
  let language :=
    if String.eqb (mLanguage st) "" && negb (String.eqb (Language result) "")
    then Language result else mLanguage st in
  let text :=
    if negb (String.eqb (Text result) "") then
      if GoStrings.HasSuffix (Text result) GoStrings.newline
      then totalText st ++ Text result
      else (totalText st ++ Text result) ++ GoStrings.newline
    else totalText st in
  let offset := StartOffset chunk in
  let acc := fold_left (appendSegment offset) (Segments result)
                       (mSegments st, segmentID st) in
  let acc :=
    if (length (Segments result) =? 0)%nat && (0 <? i)%nat
    then ((fst acc ++ [mkSegment (snd acc) offset (offset + 10)%float
                                 (Text result)])%list,
          int_succ (snd acc))
    else acc in
  mkMerge language (fst acc) (snd acc) text.

(** The loop from index [i] on; [None] is the run-time panic of
    [chunks[i]] when there are fewer chunks than results. *)
Fixpoint mergeLoop (chunks : list AudioChunk) (i : nat)
  (results : list TranscriptionResult) (st : mergeState)
  : option mergeState :=
  match results with
  | [] => Some st
  | result :: rest =>
      match chunks !! i with
      | None => None
      | Some chunk => mergeLoop chunks (S i) rest (mergeOne i result chunk st)
      end
  end.

Definition mergeInit : mergeState := mkMerge "" [] 1 "".

Definition mergeResults (results : list TranscriptionResult)
  (chunks : list AudioChunk) : option TranscriptionResult :=
  match mergeLoop chunks 0 results mergeInit with
  | None => None
  | Some st =>
      Some (mkResult (totalText st) (mLanguage st) (mSegments st)
              (match last (mSegments st) with
               | Some seg => End_ seg
               | None => 0%float
               end))
  end.

(** *** What the merger emits *)

(** A segment without its id: start, end and text. *)
Definition payload (seg : Segment) : float64 * float64 * string :=
  (Start seg, End_ seg, SegText seg).

(** Offset correction of a chunk-local segment. *)
Definition shifted (offset : float64) (seg : Segment)
  : float64 * float64 * string :=
  ((Start seg + offset)%float, (End_ seg + offset)%float, SegText seg).

(** The placeholder of a chunk that came back without segments. *)
Definition placeholder (result : TranscriptionResult) (chunk : AudioChunk)
  : float64 * float64 * string :=
  (StartOffset chunk, (StartOffset chunk + 10)%float, Text result).

(** What chunk [i] contributes to the merged segments, ids aside. *)
Definition emitted (i : nat) (result : TranscriptionResult)
  (chunk : AudioChunk) : list (float64 * float64 * string) :=
  match Segments result with
  | [] => if (0 <? i)%nat then [placeholder result chunk] else []
  | segs => map (shifted (StartOffset chunk)) segs
  end.

(** The contributions of the results from index [i] on, in order. *)
Fixpoint emittedFrom (i : nat) (results : list TranscriptionResult)
  (chunks : list AudioChunk) : list (float64 * float64 * string) :=
  match results with
  | [] => []
  | result :: rest =>
      match chunks !! i with
      | None => []
      | Some chunk =>
          (emitted i result chunk ++ emittedFrom (S i) rest chunks)%list
      end
  end.

(** Segments numbered by a counter that is incremented with [++]. *)
Fixpoint number (id : Z) (ps : list (float64 * float64 * string))
  : list Segment :=
  match ps with
  | [] => []
  | p :: ps' =>
      mkSegment id (fst (fst p)) (snd (fst p)) (snd p)
        :: number (int_succ id) ps'
  end.

(** The ids [1, 2, ..., k]. *)
Definition ids_upto (k : nat) : list Z := map Z.of_nat (seq 1 k).

(** The number of segments of all results, plus one per result: a bound
    on the number of ids the merger hands out. *)
Definition segmentBudget (results : list TranscriptionResult) : nat :=
  length results + length (concat (map Segments results)).

(** A text made to end with a line break, one being appended if missing:
    the specification's words for the merged text. *)
Definition withLineBreak (text : string) : string :=
  if GoStrings.HasSuffix text GoStrings.newline
  then text else text ++ GoStrings.newline.

Definition joined (texts : list string) : string :=
  fold_right String.append "" texts.

(** The merged text as the specification words it: every chunk text,
    each ending with a line break. *)
Definition spec_text (results : list TranscriptionResult) : string :=
  joined (map (fun result => withLineBreak (Text result)) results).

(** What a chunk adds to the merged text in the program: nothing when its
    text is empty. *)
Definition chunkText (result : TranscriptionResult) : string :=
  if String.eqb (Text result) "" then "" else withLineBreak (Text result).

(** The three chunks of the specification's example, at offsets 0, 95 and
    205, the second without segments. *)
Definition example_chunks : list AudioChunk :=
  [mkChunk "chunk0.wav" 0; mkChunk "chunk1.wav" 95; mkChunk "chunk2.wav" 205].

Definition example_results : list TranscriptionResult :=
  [mkResult "first" "en"
     [mkSegment 1 0 40 "one"; mkSegment 2 40 93.5 "two"] 0;
   mkResult "second" "" [] 0;
   mkResult "third" "en" [mkSegment 1 1.5 60 "three"] 0].

Definition startOf (p : float64 * float64 * string) : float64 := fst (fst p).

(** The corrected start times of the segments of one chunk. *)
Definition correctedStarts (result : TranscriptionResult)
  (chunk : AudioChunk) : list float64 :=
  map (fun seg => (Start seg + StartOffset chunk)%float) (Segments result).

(** The corrected starts of a chunk are non-decreasing and lie between
    the chunk's start offset and the start offset of the next chunk, when
    there is one. *)
Definition inChunkWindow (result : TranscriptionResult) (chunk : AudioChunk)
  (next : option AudioChunk) : Prop :=
  Sorted fle (correctedStarts result chunk)
  /\ Forall (fle (StartOffset chunk)) (correctedStarts result chunk)
  /\ match next with
     | Some chunk' =>
         Forall (fun t => fle t (StartOffset chunk'))
                (correctedStarts result chunk)
     | None => True
     end.

(** Two results whose start times the merger puts out of order. *)
Definition unordered_chunks : list AudioChunk :=
  [mkChunk "chunk0.wav" 0; mkChunk "chunk1.wav" 95].

Definition unordered_results : list TranscriptionResult :=
  [mkResult "late" "" [mkSegment 1 100 110 "late"] 0;
   mkResult "early" "" [mkSegment 1 0 5 "early"] 0].

(** ** isVideoFile and generateOutputPath *)

Definition videoExts : list string :=
  [".mp4"; ".avi"; ".mov"; ".mkv"; ".flv"; ".wmv"; ".webm"; ".m4v"].

Definition isVideoFile (filename : string) : bool :=
  let ext := GoStrings.ToLower (GoPath.Ext filename) in
  existsb (fun ve => String.eqb ext ve) videoExts.

(** The clock is an input: [timestamp] is what
    [time.Now().Format("20060102_150405")] returns. *)
Definition generateOutputPath (timestamp inputPath outputDir ext : string)
  : string :=
  let filename := GoPath.Base inputPath in
  let nameWithoutExt :=
    GoStrings.TrimSuffix filename (GoPath.Ext filename) in
  let outputFilename := nameWithoutExt ++ "_" ++ timestamp ++ "." ++ ext in
  GoPath.Join [outputDir; outputFilename].

(** ** Configuration: loadConfig and the command line *)

(** [Config].  The record is in a module of its own because [Model] and
    [Language] also name fields of the results. *)
Module Conf.

Record Config := mkConfig {
  APIBaseURL : string;
  APIKey : string;
  Model : string;
  Language : string;
  AutoDetect : bool;
  OutputDir : string;
  MaxFileSizeMB : float64;
  SilenceThreshold : string;
  SilenceDuration : float64
}.

End Conf.

Arguments Conf.mkConfig (_ _ _ _)%_string _%_bool _%_string _%_float
  _%_string _%_float.

Inductive configError := ErrReadConfig | ErrParseConfig.

(** The default values of [loadConfig], each set when its field has the
    zero value after decoding. *)
Definition setDefaults (config : Conf.Config) : Conf.Config :=
  Conf.mkConfig
    (Conf.APIBaseURL config)
    (Conf.APIKey config)
    (if String.eqb (Conf.Model config) ""
     then "whisper-large-v3" else Conf.Model config)
    (if String.eqb (Conf.Language config) ""
     then "zh" else Conf.Language config)
    (Conf.AutoDetect config)
    (if String.eqb (Conf.OutputDir config) ""
     then "./outputs" else Conf.OutputDir config)
    (if (Conf.MaxFileSizeMB config =? 0)%float
     then 20%float else Conf.MaxFileSizeMB config)
    (if String.eqb (Conf.SilenceThreshold config) ""
     then "-30dB" else Conf.SilenceThreshold config)
    (if (Conf.SilenceDuration config =? 0)%float
     then 0.5%float else Conf.SilenceDuration config).

(** [os.ReadFile] and [json.Unmarshal] into a zero [Config] are inputs,
    [None] standing for an error. *)
Section ConfigLoader.

Variable ReadFile : string -> option string.
Variable Unmarshal : string -> option Conf.Config.

Definition loadConfig (configPath : string) : configError + Conf.Config :=
  match ReadFile configPath with
  | None => inl ErrReadConfig
  | Some data =>
      match Unmarshal data with
      | None => inl ErrParseConfig
      | Some config => inr (setDefaults config)
      end
  end.

End ConfigLoader.

(** The command line options that [main] lets override the configuration:
    [-language], [-model], [-output] and [-auto-detect]. *)
Definition overrideConfig (language model outputDir : string)
  (autoDetect : bool) (config : Conf.Config) : Conf.Config :=
  Conf.mkConfig
    (Conf.APIBaseURL config)
    (Conf.APIKey config)
    (if negb (String.eqb model "") then model else Conf.Model config)
    (if negb (String.eqb language "")
     then language else Conf.Language config)
    (if autoDetect then true else Conf.AutoDetect config)
    (if negb (String.eqb outputDir "")
     then outputDir else Conf.OutputDir config)
    (Conf.MaxFileSizeMB config)
    (Conf.SilenceThreshold config)
    (Conf.SilenceDuration config).

(** ** Transcriber: transcribeAudio and transcribeMultipleChunks *)

(** The request handed to the API and the fields of its response that
    the program reads. *)
Record AudioRequest := mkRequest {
  reqModel : string;
  reqFilePath : string;
  reqLanguage : string
}.

Record ResponseSegment := mkResponseSegment {
  respID : Z;
  respStart : float64;
  respEnd : float64;
  respSegText : string
}.

Record AudioResponse := mkResponse {
  respText : string;
  respLanguage : string;
  respSegments : list ResponseSegment
}.

Arguments mkRequest (_ _ _)%_string.
Arguments mkResponseSegment _%_Z _%_float _%_float _%_string.
Arguments mkResponse _%_string _%_string _%_list.

Inductive transcribeError := ErrOpenAudio | ErrAPICall.

(** [os.Open] and the API are inputs: [Open path] tells whether the file
    can be opened, [CreateTranscription req] is the response to [req],
    [None] when the call fails. *)
Section Transcriber.

Variable Open : string -> bool.
Variable CreateTranscription : AudioRequest -> option AudioResponse.

(** [Segment{ID: i + 1, Start: seg.Start, End: seg.End, Text: seg.Text}]. *)
Definition toSegment (i : nat) (seg : ResponseSegment) : Segment :=
  mkSegment (wrap_int (Z.of_nat i + 1)) (respStart seg) (respEnd seg)
            (respSegText seg).

Definition transcribeAudio (audioPath model language : string)
  (autoDetect : bool) : transcribeError + TranscriptionResult :=
  if Open audioPath then
    let req :=
      mkRequest model audioPath
        (if negb autoDetect && negb (String.eqb language "")
         then language else "") in
    match CreateTranscription req with
    | None => inl ErrAPICall
    | Some resp =>
        inr (mkResult (respText resp) (respLanguage resp)
               (imap toSegment (respSegments resp)) 0)
    end
  else inl ErrOpenAudio.

(** [for i, chunk := range chunks], from index [i] on.  [results] is the
    slice of pointers made with [make], [None] being [nil]; an error
    carries the number [i + 1] of the chunk. *)
Fixpoint transcribeLoop (model language : string) (autoDetect : bool)
  (i : nat) (chunks : list AudioChunk)
  (results : list (option TranscriptionResult))
  : nat * transcribeError + list (option TranscriptionResult) :=
  match chunks with
  | [] => inr results
  | chunk :: rest =>
      match transcribeAudio (Path chunk) model language autoDetect with
      | inl e => inl (S i, e)
      | inr result =>
          transcribeLoop model language autoDetect (S i) rest
            (<[i := Some result]> results)
      end
  end.

Definition transcribeMultipleChunks (chunks : list AudioChunk)
  (model language : string) (autoDetect : bool)
  : nat * transcribeError + list (option TranscriptionResult) :=
  transcribeLoop model language autoDetect 0 chunks
    (replicate (length chunks) None).

End Transcriber.

(** ** cleanupChunks *)

Definition cleanupChunks (chunks : list AudioChunk) (fs : gset string)
  : gset string :=
  fold_left (fun fs chunk => fs ∖ {[ Path chunk ]}) chunks fs.

(** ** getFileSizeMB, getAudioDuration and splitAudioBySilence *)

(** [size] is what [os.Stat] reports, [None] when it fails. *)
Definition getFileSizeMB (size : option Z) : option float64 :=
  match size with
  | None => None
  | Some n => Some (float64_of_int n / (1024 * 1024))%float
  end.

(** A string of white space only. *)
Fixpoint blank (s : string) : bool :=
  match s with
  | EmptyString => true
  | String c s' => GoStrings.isSpace c && blank s'
  end.

Inductive splitError :=
  | ErrFileSize
  | ErrAudioDuration
  | ErrDetectSilence
  | ErrChunks (e : chunkError).

Section Splitter.

Variable Sscanf_f : string -> option float64.

(** [output] is what ffprobe printed, [None] when the command failed.
    [None] is a non-nil error; the duration returned with it is 0. *)
Definition getAudioDuration (output : option string) : option float64 :=
  match output with
  | None => None
  | Some out => Sscanf_f (GoStrings.TrimSpace out)
  end.

Variable tempDir : string.
Variable now : nat -> Z.
Variable ffmpeg : ExtractCmd -> ffmpegExit.
Variable audioPath : string.

(** [size], [probeOutput] and [silenceOutput] are what [os.Stat], ffprobe
    and ffmpeg's silence detection give for [audioPath]; ffprobe is run
    again by [createAudioChunks] and prints the same.  The result is
    [None] when the planner has not returned after [fuel] iterations. *)
Definition splitAudioBySilence (size : option Z)
  (probeOutput silenceOutput : option string) (maxSizeMB : float64)
  (fuel : nat) (fs : gset string)
  : option (gset string * (splitError + list AudioChunk)) :=
  match getFileSizeMB size with
  | None => Some (fs, inl ErrFileSize)
  | Some sizeMB =>
      match getAudioDuration probeOutput with
      | None => Some (fs, inl ErrAudioDuration)
      | Some duration =>
          let numChunks :=
            wrap_int (int_of_float64 (sizeMB / maxSizeMB)%float + 1) in
          let idealChunkDuration :=
            (duration / float64_of_int numChunks)%float in
          match detectSilence Sscanf_f silenceOutput with
          | None => Some (fs, inl ErrDetectSilence)
          | Some silencePoints =>
              match calculateSplitTimes duration idealChunkDuration
                      silencePoints fuel with
              | None => None
              | Some splitTimes =>
                  match createAudioChunks tempDir now
                          (getAudioDuration probeOutput) ffmpeg audioPath
                          splitTimes fs with
                  | (fs', inl e) => Some (fs', inl (ErrChunks e))
                  | (fs', inr chunks) => Some (fs', inr chunks)
                  end
              end
          end
      end
  end.

End Splitter.

(** ** saveTXT and saveSRT *)

(** What [txt.String()] holds when [saveTXT] writes it. *)
Definition txtContent (result : TranscriptionResult) : string :=
  if (0 <? length (Segments result))%nat
  then fold_left (fun txt seg => (txt ++ SegText seg) ++ GoStrings.newline)
                 (Segments result) ""
  else Text result.

(** One iteration of the loop of [saveSRT]. *)
Definition srtCue (seg : Segment) : string :=
  GoFmt.fmt_d (ID seg) ++ GoStrings.newline
  ++ formatSRTTime (Start seg) ++ " --> " ++ formatSRTTime (End_ seg)
  ++ GoStrings.newline
  ++ SegText seg ++ GoStrings.newline ++ GoStrings.newline.

Definition srtContent (result : TranscriptionResult) : string :=
  fold_left (fun srt seg => srt ++ srtCue seg) (Segments result) "".

(** [os.WriteFile(path, data, 0644)] is an input: whether it succeeds. *)
Section Writers.

Variable WriteFile : string -> string -> bool.

Definition saveTXT (result : TranscriptionResult) (outputPath : string)
  : bool :=
  WriteFile outputPath (txtContent result).

Definition saveSRT (result : TranscriptionResult) (outputPath : string)
  : bool :=
  WriteFile outputPath (srtContent result).

End Writers.

(** * Properties *)

(** ** The order of [float64] *)

Section FloatOrder.

Local Ltac cmp_cases :=
  repeat match goal with
  | |- context [Z.compare ?a ?b] => destruct (Z.compare_spec a b)
  | |- context [Pos.compare_cont Eq ?a ?b] =>
      change (Pos.compare_cont Eq a b) with (Pos.compare a b);
      destruct (Pos.compare_spec a b)
  end.

Lemma SFleb_trans (a b c : spec_float) :
  SFleb a b = true -> SFleb b c = true -> SFleb a c = true.
Proof.
  unfold SFleb, SFcompare.
  destruct a as [sa|sa| |sa ma ea], b as [sb|sb| |sb mb eb],
           c as [sc|sc| |sc mc ec];
    repeat match goal with s : bool |- _ => destruct s end;
    simpl; try congruence;
    cmp_cases; simpl; try congruence; lia.
Qed.

Lemma SFltb_trans (a b c : spec_float) :
  SFltb a b = true -> SFltb b c = true -> SFltb a c = true.
Proof.
  unfold SFltb, SFcompare.
  destruct a as [sa|sa| |sa ma ea], b as [sb|sb| |sb mb eb],
           c as [sc|sc| |sc mc ec];
    repeat match goal with s : bool |- _ => destruct s end;
    simpl; try congruence;
    cmp_cases; simpl; try congruence; lia.
Qed.

Lemma SFleb_refl_r (a b : spec_float) :
  SFleb a b = true -> SFleb b b = true.
Proof.
  unfold SFleb, SFcompare.
  destruct a as [sa|sa| |sa ma ea], b as [sb|sb| |sb mb eb];
    repeat match goal with s : bool |- _ => destruct s end;
    simpl; try congruence;
    cmp_cases; simpl; try congruence; lia.
Qed.

Lemma SFltb_not_ge (a b : spec_float) :
  SFltb a b = true -> SFleb b a = false.
Proof.
  unfold SFltb, SFleb, SFcompare.
  destruct a as [sa|sa| |sa ma ea], b as [sb|sb| |sb mb eb];
    repeat match goal with s : bool |- _ => destruct s end;
    simpl; try congruence;
    cmp_cases; simpl; try congruence; lia.
Qed.

Lemma SFltb_total (x a b c : spec_float) :
  SFltb x a = true -> SFltb c b = true ->
  SFleb b a = false -> SFltb a b = true.
Proof.
  intros Hx Hc.
  assert (Ha : a <> S754_nan).
  { intros ->. now destruct x. }
  assert (Hb : b <> S754_nan).
  { intros ->. now destruct c. }
  clear Hx Hc. unfold SFltb, SFleb, SFcompare.
  destruct a as [sa|sa| |sa ma ea], b as [sb|sb| |sb mb eb];
    try congruence;
    repeat match goal with s : bool |- _ => destruct s end;
    simpl; try congruence;
    cmp_cases; simpl; try congruence; lia.
Qed.

(** Two numbers that take part in a true comparison are ordered. *)
Lemma flt_total (x a b c : float64) :
  flt x a -> flt c b -> (b <=? a)%float = false -> flt a b.
Proof. unfold flt. rewrite !ltb_spec, leb_spec. apply SFltb_total. Qed.

Lemma SFleb_ltb_trans (a b c : spec_float) :
  SFleb a b = true -> SFltb b c = true -> SFltb a c = true.
Proof.
  unfold SFleb, SFltb, SFcompare.
  destruct a as [sa|sa| |sa ma ea], b as [sb|sb| |sb mb eb],
           c as [sc|sc| |sc mc ec];
    repeat match goal with s : bool |- _ => destruct s end;
    simpl; try congruence;
    cmp_cases; simpl; try congruence; lia.
Qed.

Lemma flt_not_ge (x y : float64) : flt x y -> (y <=? x)%float = false.
Proof. unfold flt. rewrite ltb_spec, leb_spec. apply SFltb_not_ge. Qed.

Lemma fle_trans (x y z : float64) : fle x y -> fle y z -> fle x z.
Proof. unfold fle. rewrite !leb_spec. apply SFleb_trans. Qed.

Lemma flt_trans (x y z : float64) : flt x y -> flt y z -> flt x z.
Proof. unfold flt. rewrite !ltb_spec. apply SFltb_trans. Qed.

Lemma fle_refl_r (x y : float64) : fle x y -> fle y y.
Proof. unfold fle. rewrite !leb_spec. apply SFleb_refl_r. Qed.

End FloatOrder.

(** ** The sign of sums and products

    From the IEEE 754 specification of the operations: the sum of two
    numbers above zero is above zero, and the product of two such numbers
    is not below zero (it may underflow to zero). *)

Section FloatSign.

Lemma SFltb_zero (x : spec_float) :
  SFltb (S754_zero false) x = true <-> SFpos x.
Proof.
  destruct x as [s|s| |s m e]; try destruct s; simpl; split; intros H;
    first [exact I | reflexivity | discriminate | contradiction].
Qed.

Lemma SFleb_zero (x : spec_float) :
  SFleb (S754_zero false) x = true <-> SFnonneg x.
Proof.
  destruct x as [s|s| |s m e]; try destruct s; simpl; split; intros H;
    first [exact I | reflexivity | discriminate | contradiction].
Qed.

Lemma iter_pos_nat {A : Type} (f : A -> A) (n : positive) :
  forall x, SpecFloat.iter_pos f n x = Nat.iter (Pos.to_nat n) f x.
Proof.
  assert (Hcomm : forall k x, Nat.iter k f (f x) = f (Nat.iter k f x)).
  { induction k as [|k IH]; intros x; simpl; [reflexivity|now rewrite IH]. }
  assert (Hadd : forall j k x,
             Nat.iter (j + k) f x = Nat.iter j f (Nat.iter k f x)).
  { induction j as [|j IH]; intros k x; simpl; [reflexivity|now rewrite IH]. }
  assert (Hsucc : forall k x, Nat.iter (S k) f x = f (Nat.iter k f x))
    by reflexivity.
  induction n as [n IH|n IH|]; intros x; cbn [SpecFloat.iter_pos].
  - rewrite !IH, Pos2Nat.inj_xI.
    replace (2 * Pos.to_nat n)%nat with (Pos.to_nat n + Pos.to_nat n)%nat
      by lia.
    rewrite Hsucc, Hadd. now rewrite !Hcomm.
  - rewrite !IH, Pos2Nat.inj_xO.
    replace (2 * Pos.to_nat n)%nat with (Pos.to_nat n + Pos.to_nat n)%nat
      by lia.
    now rewrite Hadd.
  - reflexivity.
Qed.

Lemma shr_1_nonneg (mrs : shr_record) :
  0 <= shr_m mrs -> 0 <= shr_m (shr_1 mrs).
Proof.
  destruct mrs as [m r s]. simpl. destruct m as [|p|p]; simpl; [lia| |lia].
  destruct p; simpl; lia.
Qed.

Lemma shr_1_pos (mrs : shr_record) (p : positive) :
  shr_m mrs = Z.pos p -> 1 < Z.pos (digits2_pos p) ->
  exists p', shr_m (shr_1 mrs) = Z.pos p'
             /\ Z.pos (digits2_pos p') = Z.pos (digits2_pos p) - 1.
Proof.
  destruct mrs as [m r s]. cbn [shr_m]. intros -> Hd.
  destruct p as [p|p|]; cbn [shr_1 shr_m digits2_pos] in *.
  - exists p. split; [reflexivity|lia].
  - exists p. split; [reflexivity|lia].
  - lia.
Qed.

Lemma iter_shr_1_pos (k : nat) :
  forall (mrs : shr_record) (p : positive),
    shr_m mrs = Z.pos p -> Z.of_nat k < Z.pos (digits2_pos p) ->
    exists p', shr_m (Nat.iter k shr_1 mrs) = Z.pos p'
               /\ Z.pos (digits2_pos p')
                  = Z.pos (digits2_pos p) - Z.of_nat k.
Proof.
  induction k as [|k IH]; intros mrs p Hm Hk.
  - exists p. split; [exact Hm|simpl; lia].
  - destruct (IH mrs p Hm) as (p1 & Hp1 & Hd1); [lia|].
    destruct (shr_1_pos _ p1 Hp1) as (p2 & Hp2 & Hd2); [lia|].
    exists p2. split; [exact Hp2|lia].
Qed.

Lemma iter_shr_1_nonneg (k : nat) (mrs : shr_record) :
  0 <= shr_m mrs -> 0 <= shr_m (Nat.iter k shr_1 mrs).
Proof.
  induction k as [|k IH]; intros H; simpl; [exact H|].
  now apply shr_1_nonneg, IH.
Qed.

(** Shifting a positive mantissa down to its format keeps it positive,
    when the exponent is not below the smallest one. *)
Lemma shr_fexp_pos (p : positive) (e : Z) (l : location) :
  emin <= e ->
  exists p', shr_m (fst (shr_fexp prec emax (Z.pos p) e l)) = Z.pos p'
             /\ emin <= snd (shr_fexp prec emax (Z.pos p) e l).
Proof.
  unfold shr_fexp, shr, fexp, SpecFloat.emin, prec, emax. simpl Zdigits2.
  intros He.
  set (mrs := shr_record_of_loc (Z.pos p) l).
  assert (Hm : shr_m mrs = Z.pos p) by (unfold mrs; destruct l as [|[]]; reflexivity).
  destruct (Z.max (Z.pos (digits2_pos p) + e - 53) (3 - 1024 - 53) - e)
    as [|n|n] eqn:Hn; simpl.
  - exists p. split; [exact Hm|lia].
  - rewrite iter_pos_nat.
    destruct (iter_shr_1_pos (Pos.to_nat n) mrs p Hm) as (p' & Hp' & _);
      [rewrite positive_nat_Z; lia|].
    exists p'. split; [exact Hp'|lia].
  - exists p. split; [exact Hm|lia].
Qed.

Lemma shr_fexp_nonneg (m e : Z) (l : location) :
  0 <= m -> 0 <= shr_m (fst (shr_fexp prec emax m e l)).
Proof.
  unfold shr_fexp, shr. intros Hm.
  set (mrs := shr_record_of_loc m l).
  assert (H : 0 <= shr_m mrs) by (unfold mrs; destruct l as [|[]]; exact Hm).
  destruct (fexp prec emax (Zdigits2 m + e) - e) as [|n|n]; simpl; try exact H.
  rewrite iter_pos_nat. now apply iter_shr_1_nonneg.
Qed.

Lemma round_nearest_even_pos (p : positive) (l : location) :
  exists p', round_nearest_even (Z.pos p) l = Z.pos p'.
Proof.
  destruct l as [|[| |]]; cbn [round_nearest_even].
  - now exists p.
  - destruct (Z.even (Z.pos p)); [now exists p|now exists (p + 1)%positive].
  - now exists p.
  - now exists (p + 1)%positive.
Qed.

Lemma round_nearest_even_nonneg (m : Z) (l : location) :
  0 <= m -> 0 <= round_nearest_even m l.
Proof.
  intros H. destruct l as [|[]]; simpl; try lia.
  destruct (Z.even m); lia.
Qed.

Lemma binary_round_aux_pos (p : positive) (e : Z) (l : location) :
  emin <= e -> SFpos (binary_round_aux prec emax false (Z.pos p) e l).
Proof.
  intros He. unfold binary_round_aux.
  destruct (shr_fexp_pos p e l He) as (p1 & Hp1 & He1).
  destruct (shr_fexp prec emax (Z.pos p) e l) as [mrs1 e1]. simpl in *.
  rewrite Hp1.
  destruct (round_nearest_even_pos p1 (loc_of_shr_record mrs1)) as (p2 & ->).
  destruct (shr_fexp_pos p2 e1 loc_Exact He1) as (p3 & Hp3 & _).
  destruct (shr_fexp prec emax (Z.pos p2) e1 loc_Exact) as [mrs2 e2].
  simpl in *. rewrite Hp3. destruct (Z.leb _ _); exact I.
Qed.

Lemma binary_round_aux_nonneg (m e : Z) (l : location) :
  0 <= m -> SFnonneg (binary_round_aux prec emax false m e l).
Proof.
  intros Hm. unfold binary_round_aux.
  pose proof (shr_fexp_nonneg m e l Hm) as H1.
  destruct (shr_fexp prec emax m e l) as [mrs1 e1]. simpl in *.
  pose proof (round_nearest_even_nonneg _ (loc_of_shr_record mrs1) H1) as H2.
  pose proof (shr_fexp_nonneg _ e1 loc_Exact H2) as H3.
  destruct (shr_fexp prec emax _ e1 loc_Exact) as [mrs2 e2]. simpl in *.
  destruct (shr_m mrs2) as [|q|q]; [exact I| |lia].
  destruct (Z.leb _ _); exact I.
Qed.

Lemma valid_emin (s : bool) (m : positive) (e : Z) :
  valid_binary (S754_finite s m e) = true -> emin <= e.
Proof.
  simpl. unfold bounded, canonical_mantissa, fexp.
  rewrite andb_true_iff, Z.eqb_eq. lia.
Qed.

Lemma binary_round_pos (p : positive) (e : Z) :
  emin <= e -> SFpos (binary_round prec emax false p e).
Proof.
  intros He. unfold binary_round, shl_align.
  set (e' := fexp prec emax (Z.pos (digits2_pos p) + e)).
  assert (He' : emin <= e') by (unfold e', fexp; lia).
  destruct (e' - e) as [|d|d]; now apply binary_round_aux_pos.
Qed.

Lemma SFadd_pos (x y : spec_float) :
  valid_binary x = true -> valid_binary y = true ->
  SFpos x -> SFpos y -> SFpos (SF64add x y).
Proof.
  unfold SF64add, SFadd.
  destruct x as [sx|sx| |sx mx ex], y as [sy|sy| |sy my ey];
    try destruct sx; try destruct sy; cbn [SFpos]; try tauto.
  intros Vx Vy _ _.
  apply valid_emin in Vx, Vy.
  unfold cond_Zopp, binary_normalize.
  set (ez := Z.min ex ey).
  destruct (shl_align mx ex ez) as [ax ?], (shl_align my ey ez) as [ay ?].
  cbn [fst]. change (Z.pos ax + Z.pos ay) with (Z.pos (ax + ay)).
  apply binary_round_pos. unfold ez. lia.
Qed.

Lemma SFmul_nonneg (x y : spec_float) :
  SFpos x -> SFpos y -> SFnonneg (SF64mul x y).
Proof.
  unfold SF64mul, SFmul.
  destruct x as [sx|sx| |sx mx ex], y as [sy|sy| |sy my ey];
    try destruct sx; try destruct sy; cbn [SFpos SFnonneg xorb]; try tauto.
  intros _ _. apply binary_round_aux_nonneg. lia.
Qed.

End FloatSign.


Lemma float_add_pos (x y : float64) :
  (0 <? x)%float = true -> (0 <? y)%float = true ->
  (0 <? x + y)%float = true.
Proof.
  rewrite !ltb_spec, add_spec.
  change (Prim2SF 0) with (S754_zero false). rewrite !SFltb_zero.
  apply SFadd_pos; apply Prim2SF_valid.
Qed.

Lemma float_half_nonneg (x : float64) :
  (0 <? x)%float = true -> (0 <=? x * 0.5)%float = true.
Proof.
  rewrite ltb_spec, leb_spec, mul_spec.
  change (Prim2SF 0) with (S754_zero false).
  rewrite SFltb_zero, SFleb_zero. intros Hx.
  apply SFmul_nonneg; [exact Hx|]. vm_compute. exact I.
Qed.

Lemma float_above_half_pos (x e : float64) :
  (0 <? x)%float = true -> (x * 0.5 <? e)%float = true ->
  (0 <? e)%float = true.
Proof.
  intros Hx He. pose proof (float_half_nonneg x Hx) as Hh.
  rewrite ltb_spec in *. rewrite leb_spec in Hh.
  eapply SFleb_ltb_trans; eassumption.
Qed.

(** ** Strings *)

Section Strings.

Import GoStrings.

Lemma append_cons (c : ascii) (s t : string) :
  String c s ++ t = String c (s ++ t).
Proof. reflexivity. Qed.

Lemma append_nil_r (s : string) : s ++ "" = s.
Proof.
  induction s as [|c s IH]; [reflexivity|]. now rewrite append_cons, IH.
Qed.

Lemma append_assoc (s t u : string) : (s ++ t) ++ u = s ++ (t ++ u).
Proof.
  induction s as [|c s IH]; [reflexivity|]. now rewrite !append_cons, IH.
Qed.

Lemma HasPrefix_nil (s : string) : HasPrefix s "" = true.
Proof. now destruct s. Qed.

(** A field without the separator is cut off at the first separator. *)
Lemma split_go_bar (t : string) :
  forall s cur : string,
    Contains s "|" = false ->
    split_go "|" (s ++ "|" ++ t) 0 cur = (cur ++ s) :: split_go "|" t 0 "".
Proof.
  induction s as [|c s IH]; intros cur Hs.
  - change ("" ++ "|" ++ t) with (String "|" t).
    cbn [split_go HasPrefix]. rewrite HasPrefix_nil, append_nil_r.
    reflexivity.
  - change (String c s ++ "|" ++ t) with (String c (s ++ "|" ++ t)).
    cbn [Contains HasPrefix] in Hs. rewrite HasPrefix_nil in Hs.
    apply orb_false_iff in Hs as [Hc Hs].
    cbn [split_go HasPrefix]. rewrite HasPrefix_nil, Hc.
    rewrite IH by assumption. now rewrite append_assoc.
Qed.

Lemma split_go_cons (sep s : string) (skip : nat) (cur : string) :
  exists field fields, split_go sep s skip cur = field :: fields.
Proof.
  revert skip cur. induction s as [|c s IH]; intros skip cur.
  - cbn [split_go]. eauto.
  - cbn [split_go]. destruct skip as [|k]; [|apply IH].
    destruct (HasPrefix (String c s) sep); [eauto|apply IH].
Qed.

(** A text that contains the separator has a field after it. *)
Lemma Split_Contains (s : string) (c : ascii) (sep : string) :
  Contains s (String c sep) = true ->
  exists before part rest, Split s (String c sep) = before :: part :: rest.
Proof.
  unfold Split. generalize "" as cur.
  induction s as [|d s IH]; intros cur Hs.
  - discriminate.
  - cbn [Contains] in Hs. cbn [split_go].
    destruct (HasPrefix (String d s) (String c sep)) eqn:Hp.
    + destruct (split_go_cons (String c sep) s
                  (String.length (String c sep) - 1) "")
        as (part & rest & ->).
      eauto.
    + apply IH. exact Hs.
Qed.

End Strings.

(** ** Paths *)

Section Paths.

Import GoStrings GoPath.

Local Abbreviation bytes := list_ascii_of_string.

(** [s] has none of the bytes [c]. *)
Lemma Contains_byte (c : ascii) (s : string) :
  Contains s (String c "") = false <-> Forall (fun d => d <> c) (bytes s).
Proof.
  induction s as [|d s IH]; cbn [Contains HasPrefix list_ascii_of_string].
  - split; [constructor|reflexivity].
  - rewrite HasPrefix_nil, andb_true_r, orb_false_iff, IH, Forall_cons.
    rewrite Ascii.eqb_neq. split; intros [H1 H2]; split; congruence.
Qed.

Lemma bytes_app (s t : string) :
  bytes (s ++ t) = (bytes s ++ bytes t)%list.
Proof.
  induction s as [|c s IH]; [reflexivity|].
  rewrite append_cons. cbn [list_ascii_of_string]. now rewrite IH.
Qed.

Lemma length_append (s t : string) :
  String.length (s ++ t) = (String.length s + String.length t)%nat.
Proof.
  induction s as [|c s IH]; [reflexivity|].
  rewrite append_cons. cbn [String.length]. now rewrite IH.
Qed.

Lemma append_inv_head (s t u : string) : s ++ t = s ++ u -> t = u.
Proof.
  induction s as [|c s IH]; [trivial|].
  rewrite !append_cons. intros [= H]. auto.
Qed.

(** Bytes that are neither a dot nor a separator are passed over. *)
Lemma ext_scan_app (l : string) :
  forall (back : list ascii) (suffix : string),
    Contains l "." = false -> Contains l "/" = false ->
    ext_scan (List.rev (bytes l) ++ back) suffix
    = ext_scan back (l ++ suffix).
Proof.
  induction l as [|c l IH]; intros back suffix Hdot Hsep; [reflexivity|].
  apply Contains_byte in Hdot, Hsep. cbn [list_ascii_of_string] in *.
  apply Forall_cons in Hdot as [Hc1 Hdot], Hsep as [Hc2 Hsep].
  cbn [List.rev]. rewrite <- app_assoc. cbn [app].
  rewrite IH by now apply Contains_byte.
  cbn [ext_scan]. unfold IsPathSeparator.
  apply Ascii.eqb_neq in Hc1, Hc2. now rewrite Hc1, Hc2.
Qed.

(** The scan stops at a separator: what lies before it is not seen. *)
Lemma ext_scan_separator (l back : list ascii) (suffix : string) :
  Forall (fun d => d <> "/"%char) l ->
  ext_scan (l ++ "/"%char :: back) suffix = ext_scan l suffix.
Proof.
  revert suffix. induction l as [|c l IH]; intros suffix Hl; [reflexivity|].
  apply Forall_cons in Hl as [Hc Hl]. cbn [app ext_scan].
  destruct (IsPathSeparator c); [reflexivity|].
  destruct (Ascii.eqb c "."); [reflexivity|]. now apply IH.
Qed.

Lemma Forall_rev_bytes (P : ascii -> Prop) (l : list ascii) :
  Forall P l -> Forall P (List.rev l).
Proof. rewrite !List.Forall_forall. intros H x Hx. apply H. now apply in_rev. Qed.

(** The extension of [stem.e]. *)
Lemma Ext_dot (stem e : string) :
  Contains e "." = false -> Contains e "/" = false ->
  Ext (stem ++ "." ++ e) = "." ++ e.
Proof.
  intros Hdot Hsep. unfold Ext.
  rewrite !bytes_app, !rev_app_distr. cbn [list_ascii_of_string List.rev app].
  rewrite <- app_assoc. cbn [app].
  rewrite ext_scan_app by assumption. cbn [ext_scan]. unfold IsPathSeparator.
  cbn [Ascii.eqb Bool.eqb]. now rewrite append_nil_r.
Qed.

(** The extension is that of the last element of the path. *)
Lemma Ext_last_element (dir name : string) :
  Contains name "/" = false ->
  Ext (dir ++ "/" ++ name) = Ext name.
Proof.
  intros Hsep. unfold Ext.
  rewrite !bytes_app, !rev_app_distr. cbn [list_ascii_of_string List.rev app].
  rewrite <- app_assoc. cbn [app].
  apply ext_scan_separator, Forall_rev_bytes. now apply Contains_byte.
Qed.

Lemma ext_scan_no_dot (l : list ascii) (suffix : string) :
  Forall (fun d => d <> "."%char) l -> ext_scan l suffix = "".
Proof.
  revert suffix. induction l as [|c l IH]; intros suffix Hl; [reflexivity|].
  apply Forall_cons in Hl as [Hc Hl]. cbn [ext_scan].
  destruct (IsPathSeparator c); [reflexivity|].
  apply Ascii.eqb_neq in Hc. rewrite Hc. now apply IH.
Qed.

Lemma Ext_no_dot (name : string) :
  Contains name "." = false -> Ext name = "".
Proof.
  intros Hdot. apply ext_scan_no_dot, Forall_rev_bytes.
  now apply Contains_byte.
Qed.

Lemma last_element_app (l : string) :
  forall (back : list ascii) (suffix : string),
    Contains l "/" = false ->
    last_element (List.rev (bytes l) ++ back) suffix
    = last_element back (l ++ suffix).
Proof.
  induction l as [|c l IH]; intros back suffix Hsep; [reflexivity|].
  apply Contains_byte in Hsep. cbn [list_ascii_of_string] in *.
  apply Forall_cons in Hsep as [Hc Hsep].
  cbn [List.rev]. rewrite <- app_assoc. cbn [app].
  rewrite IH by now apply Contains_byte.
  cbn [last_element]. unfold IsPathSeparator.
  apply Ascii.eqb_neq in Hc. now rewrite Hc.
Qed.

Lemma strip_separators_last (l back : list ascii) (c : ascii) :
  c <> "/"%char ->
  strip_separators (List.rev (l ++ [c]) ++ back)
  = (List.rev (l ++ [c]) ++ back)%list.
Proof.
  intros Hc. rewrite rev_app_distr. cbn [List.rev app strip_separators].
  unfold IsPathSeparator. apply Ascii.eqb_neq in Hc. now rewrite Hc.
Qed.

Lemma bytes_snoc (s : string) :
  s <> "" -> exists l c, bytes s = (l ++ [c])%list.
Proof.
  intros Hs. destruct (bytes s) as [|c l] eqn:Hb using rev_ind.
  - destruct s; [congruence|discriminate].
  - eauto.
Qed.

(** The last element of a path that does not end in a separator. *)
Lemma Base_last_element (dir name : string) :
  name <> "" -> Contains name "/" = false ->
  Base (dir ++ "/" ++ name) = name /\ Base name = name.
Proof.
  intros Hne Hsep.
  assert (Hstrip : forall back,
             strip_separators (List.rev (bytes name) ++ back)
             = (List.rev (bytes name) ++ back)%list).
  { intros back. destruct (bytes_snoc name Hne) as (l & c & Hb).
    pose proof (proj1 (Contains_byte _ _) Hsep) as Hall.
    rewrite Hb in *. apply Forall_app in Hall as [_ Hc].
    apply Forall_cons in Hc as [Hc _]. now apply strip_separators_last. }
  assert (Hname : String.eqb name "" = false) by now apply String.eqb_neq.
  split; unfold Base.
  - destruct (String.eqb_spec (dir ++ "/" ++ name) "") as [He|_].
    { apply (f_equal String.length) in He.
      rewrite !length_append in He. simpl in He. lia. }
    rewrite !bytes_app, !rev_app_distr.
    cbn [list_ascii_of_string List.rev app].
    rewrite <- app_assoc. cbn [app].
    rewrite Hstrip, last_element_app by assumption.
    cbn [last_element]. unfold IsPathSeparator. cbn [Ascii.eqb Bool.eqb].
    now rewrite append_nil_r, Hname.
  - rewrite Hname. specialize (Hstrip []). rewrite app_nil_r in Hstrip.
    rewrite Hstrip.
    rewrite <- (app_nil_r (List.rev (bytes name))), last_element_app
      by assumption.
    cbn [last_element]. now rewrite append_nil_r, Hname.
Qed.

Lemma substring_prefix (s t : string) :
  substring 0 (String.length s) (s ++ t) = s.
Proof.
  induction s as [|c s IH]; [now destruct t|].
  rewrite append_cons. cbn [String.length substring]. now rewrite IH.
Qed.

Lemma substring_suffix (s t : string) :
  substring (String.length s) (String.length t) (s ++ t) = t.
Proof.
  induction s as [|c s IH].
  - change ("" ++ t) with t. cbn [String.length].
    rewrite <- (append_nil_r t) at 2. apply substring_prefix.
  - rewrite append_cons. cbn [String.length substring]. exact IH.
Qed.

Lemma TrimSuffix_append (s t : string) : TrimSuffix (s ++ t) t = s.
Proof.
  unfold TrimSuffix, HasSuffix. rewrite length_append.
  replace (String.length s + String.length t - String.length t)%nat
    with (String.length s) by lia.
  rewrite substring_suffix, String.eqb_refl, substring_prefix.
  destruct (String.length t <=? String.length s + String.length t)%nat eqn:H;
    [reflexivity|].
  apply Nat.leb_gt in H. lia.
Qed.

Lemma toLowerByte_keeps (c : ascii) :
  (c =? "/")%char = (toLowerByte c =? "/")%char
  /\ (c =? ".")%char = (toLowerByte c =? ".")%char.
Proof.
  destruct c as [[] [] [] [] [] [] [] []]; split; reflexivity.
Qed.

Lemma ext_scan_ToLower (l : list ascii) (suffix : string) :
  ext_scan (map toLowerByte l) (ToLower suffix)
  = ToLower (ext_scan l suffix).
Proof.
  revert suffix. induction l as [|c l IH]; intros suffix; [reflexivity|].
  cbn [map ext_scan]. unfold IsPathSeparator.
  destruct (toLowerByte_keeps c) as [<- <-].
  destruct (Ascii.eqb c "/"); [reflexivity|].
  destruct (Ascii.eqb c "."); [reflexivity|].
  apply (IH (String c suffix)).
Qed.

Lemma bytes_ToLower (s : string) :
  bytes (ToLower s) = map toLowerByte (bytes s).
Proof.
  induction s as [|c s IH]; [reflexivity|].
  cbn [ToLower list_ascii_of_string map]. now rewrite IH.
Qed.

(** Lower-casing commutes with taking the extension. *)
Lemma Ext_ToLower (s : string) : Ext (ToLower s) = ToLower (Ext s).
Proof.
  unfold Ext. rewrite bytes_ToLower, <- map_rev.
  apply (ext_scan_ToLower _ "").
Qed.

End Paths.

(** ** [filepath.Join] *)

Section Joining.

Import GoStrings GoPath.

Local Abbreviation bytes := list_ascii_of_string.

Lemma string_of_bytes_app (l1 l2 : list ascii) :
  string_of_list_ascii (l1 ++ l2)
  = string_of_list_ascii l1 ++ string_of_list_ascii l2.
Proof.
  induction l1 as [|c l1 IH]; [reflexivity|].
  cbn [app string_of_list_ascii]. now rewrite IH.
Qed.

(** Copying a path element: the bytes up to the next separator. *)
Lemma clean_scan_element (rooted : bool) (rest : string) :
  forall (out : list ascii) (dotdot : nat),
    Contains rest "/" = false ->
    clean_scan rooted rest true out dotdot
    = ((List.rev (bytes rest) ++ out)%list, dotdot).
Proof.
  induction rest as [|c rest IH]; intros out dotdot Hsep; [reflexivity|].
  cbn [Contains HasPrefix] in Hsep. rewrite HasPrefix_nil, andb_true_r in Hsep.
  apply orb_false_iff in Hsep as [Hc Hsep].
  cbn [clean_scan list_ascii_of_string List.rev]. unfold IsPathSeparator.
  rewrite Ascii.eqb_sym, Hc, IH by assumption.
  now rewrite <- app_assoc.
Qed.

Lemma elementEnd_app (p q : string) :
  elementEnd (p ++ String "/" q) = elementEnd p.
Proof. now destruct p. Qed.

(** The scan of a path up to one of its separators does not depend on
    what follows that separator. *)
Lemma clean_scan_app (rooted : bool) (q : string) (n : nat) :
  forall (p : string) (inElem : bool) (out : list ascii) (dotdot : nat),
    (String.length p <= n)%nat ->
    clean_scan rooted (p ++ String "/" q) inElem out dotdot
    = clean_scan rooted q false
        (fst (clean_scan rooted p inElem out dotdot))
        (snd (clean_scan rooted p inElem out dotdot)).
Proof.
  induction n as [|n IH]; intros p inElem out dotdot Hlen.
  - destruct p; [reflexivity|simpl in Hlen; lia].
  - destruct p as [|c rest]; [reflexivity|].
    cbn [String.length] in Hlen. rewrite append_cons.
    cbn [clean_scan]. destruct (IsPathSeparator c); [apply IH; lia|].
    destruct inElem; [apply IH; lia|].
    rewrite elementEnd_app.
    destruct (Ascii.eqb c "." && elementEnd rest); [apply IH; lia|].
    destruct rest as [|d rest'].
    + change ("" ++ String "/" q) with (String "/" q).
      cbn [andb elementEnd IsPathSeparator Ascii.eqb Bool.eqb clean_scan fst snd].
      destruct (Ascii.eqb c "."); cbn [andb]; [|reflexivity].
      destruct (Ascii.eqb "/" "." ) eqn:E; [discriminate E|reflexivity].
    + rewrite append_cons, elementEnd_app. cbn [String.length] in Hlen.
      destruct (Ascii.eqb c "." && Ascii.eqb d "." && elementEnd rest').
      * destruct (dotdotElement rooted out dotdot) as [o dd].
        apply IH. lia.
      * rewrite <- append_cons. apply IH. cbn [String.length]. lia.
Qed.

(** A last element that begins with a byte other than a dot is copied
    as it is. *)
Lemma clean_scan_name (rooted : bool) (c : ascii) (rest : string)
  (out : list ascii) (dotdot : nat) :
  c <> "."%char -> c <> "/"%char -> Contains rest "/" = false ->
  clean_scan rooted (String c rest) false out dotdot
  = ((List.rev (bytes rest) ++ c :: addSeparator rooted out)%list, dotdot).
Proof.
  intros Hdot Hsep Hrest. cbn [clean_scan]. unfold IsPathSeparator.
  apply Ascii.eqb_neq in Hdot, Hsep. rewrite Hdot, Hsep. cbn [andb].
  rewrite clean_scan_element by assumption. now destruct rest.
Qed.

(** [filepath.Join(dir, name)] ends with [name], after a prefix that
    [dir] alone determines. *)
Lemma Join_last_element (dir : string) :
  exists prefix : string,
    forall (c : ascii) (rest : string),
      c <> "."%char -> c <> "/"%char -> Contains rest "/" = false ->
      GoPath.Join [dir; String c rest] = prefix ++ String c rest.
Proof.
  destruct dir as [|c0 dir].
  - exists "". intros c rest Hdot Hsep Hrest.
    cbn [GoPath.Join String.eqb GoStrings.Join Clean].
    assert (Hr : IsPathSeparator c = false) by now apply Ascii.eqb_neq.
    rewrite Hr, clean_scan_name by assumption. cbn [fst addSeparator].
    cbn.
    destruct (List.rev (bytes rest) ++ [c])%list eqn:E.
    { apply (f_equal length) in E. rewrite length_app in E. simpl in E. lia. }
    rewrite <- E, rev_app_distr, rev_involutive. cbn.
    now rewrite string_of_list_ascii_of_string.
  - destruct (IsPathSeparator c0) eqn:Hroot.
    + exists (string_of_list_ascii
                (List.rev (addSeparator true
                   (fst (clean_scan true dir false ["/"%char] 1))))).
      intros c rest Hdot Hsep Hrest.
      cbn [GoPath.Join String.eqb GoStrings.Join]. rewrite append_cons.
      cbn [Clean]. rewrite Hroot.
      change ("/" ++ String c rest) with (String "/" (String c rest)).
      rewrite (clean_scan_app _ _ _ _ _ _ _ (Nat.le_refl _)).
      rewrite clean_scan_name by assumption. cbn [fst].
      destruct (List.rev (bytes rest) ++ _)%list eqn:E.
      { apply (f_equal length) in E. rewrite length_app in E. simpl in E. lia. }
      rewrite <- E, rev_app_distr, rev_involutive. cbn [List.rev].
      rewrite <- app_assoc, string_of_bytes_app. cbn [app string_of_list_ascii].
      now rewrite string_of_list_ascii_of_string.
    + exists (string_of_list_ascii
                (List.rev (addSeparator false
                   (fst (clean_scan false (String c0 dir) false [] 0))))).
      intros c rest Hdot Hsep Hrest.
      cbn [GoPath.Join String.eqb GoStrings.Join]. rewrite append_cons.
      cbn [Clean]. rewrite Hroot. rewrite <- append_cons.
      change ("/" ++ String c rest) with (String "/" (String c rest)).
      rewrite (clean_scan_app _ _ _ _ _ _ _ (Nat.le_refl _)).
      rewrite clean_scan_name by assumption. cbn [fst].
      destruct (List.rev (bytes rest) ++ _)%list eqn:E.
      { apply (f_equal length) in E. rewrite length_app in E. simpl in E. lia. }
      rewrite <- E, rev_app_distr, rev_involutive. cbn [List.rev].
      rewrite <- app_assoc, string_of_bytes_app. cbn [app string_of_list_ascii].
      now rewrite string_of_list_ascii_of_string.
Qed.

End Joining.

(** ** Numerals *)

Section Numerals.

Import GoStrings GoFmt.

(** Two strings cut at the first occurrence of a byte. *)
Lemma append_split_at (c : ascii) (a : string) :
  forall a' r r' : string,
    Contains a (String c "") = false ->
    Contains a' (String c "") = false ->
    a ++ String c r = a' ++ String c r' -> a = a' /\ r = r'.
Proof.
  induction a as [|x a IH]; intros [|y a'] r r' Ha Ha'.
  - now intros [= ->].
  - change ("" ++ String c r) with (String c r). rewrite append_cons.
    intros [= -> _]. cbn [Contains HasPrefix] in Ha'.
    now rewrite Ascii.eqb_refl, HasPrefix_nil in Ha'.
  - change ("" ++ String c r') with (String c r'). rewrite append_cons.
    intros [= -> _]. cbn [Contains HasPrefix] in Ha.
    now rewrite Ascii.eqb_refl, HasPrefix_nil in Ha.
  - rewrite !append_cons. intros [= -> H].
    cbn [Contains HasPrefix] in Ha, Ha'.
    apply orb_false_iff in Ha as [_ Ha], Ha' as [_ Ha'].
    destruct (IH _ _ _ Ha Ha' H) as [-> ->]. now split.
Qed.

Lemma NilEmpty_digits (c : ascii) (d : Decimal.uint) :
  is_digit c = false ->
  Contains (NilEmpty.string_of_uint d) (String c "") = false.
Proof.
  intros Hc. induction d; cbn [NilEmpty.string_of_uint Contains HasPrefix];
    [reflexivity|..]; rewrite IHd, HasPrefix_nil, orb_false_r, andb_true_r;
    apply Ascii.eqb_neq; intros ->; discriminate.
Qed.

(** A numeral written with [%d] has digits and a minus sign only. *)
Lemma fmt_d_bytes (c : ascii) (n : Z) :
  is_digit c = false -> c <> "-"%char ->
  Contains (fmt_d n) (String c "") = false.
Proof.
  intros Hc Hm.
  assert (Hd : Contains (digits_of n) (String c "") = false).
  { unfold digits_of, NilZero.string_of_uint.
    destruct (N.to_uint _) eqn:Hu; try (rewrite <- Hu; clear Hu);
      try now apply NilEmpty_digits.
    cbn [Contains HasPrefix]. rewrite orb_false_r, andb_true_r.
    apply Ascii.eqb_neq. intros ->. discriminate. }
  unfold fmt_d. destruct (n <? 0); [|exact Hd].
  change ("-" ++ digits_of n) with (String "-" (digits_of n)).
  cbn [Contains HasPrefix].
  rewrite Hd, HasPrefix_nil, orb_false_r, andb_true_r.
  now apply Ascii.eqb_neq.
Qed.

Lemma to_uint_nonnil (n : N) : N.to_uint n <> Decimal.Nil.
Proof.
  destruct n as [|p]; [discriminate|].
  apply DecimalPos.Unsigned.to_uint_nonnil.
Qed.

Lemma digits_of_inj (n m : Z) :
  0 <= n -> 0 <= m -> digits_of n = digits_of m -> n = m.
Proof.
  unfold digits_of. intros Hn Hm H.
  apply (f_equal NilZero.uint_of_string) in H.
  rewrite !NilZero.usu in H by apply to_uint_nonnil.
  injection H as H. apply DecimalN.Unsigned.to_uint_inj in H. lia.
Qed.

End Numerals.

(** ** SilenceEventParser *)

Section Parser.

Variable scan : string -> option float64.

Lemma scanLine_start (st : scanState) (line : string) :
  isStartLine line = true ->
  scanLine scan st line
  = match markerTime scan "silence_start:" line with
    | Some start => mkScan start (points st)
    | None => st
    end.
Proof.
  unfold isStartLine, scanLine, markerTime. intros ->.
  now destruct (GoStrings.Split line "silence_start:") as [|? [|part ?]].
Qed.

Lemma scanLine_end (st : scanState) (line : string) :
  isEndLine line = true ->
  scanLine scan st line
  = match markerTime scan "silence_end:" line with
    | Some end_ =>
        mkScan (currentStart st)
               (points st ++ [mkSilence (currentStart st) end_])%list
    | None => st
    end.
Proof.
  unfold isEndLine, scanLine, markerTime.
  rewrite andb_true_iff, negb_true_iff. intros [-> ->].
  now destruct (GoStrings.Split line "silence_end:") as [|? [|part ?]].
Qed.

Lemma scanLines_app (l1 l2 : list string) (st : scanState) :
  scanLines scan (l1 ++ l2) st = scanLines scan l2 (scanLines scan l1 st).
Proof. unfold scanLines. apply fold_left_app. Qed.

Lemma scanLine_start_points (st : scanState) (line : string) :
  isStartLine line = true -> points (scanLine scan st line) = points st.
Proof.
  intros H. rewrite scanLine_start by assumption.
  now destruct (markerTime scan "silence_start:" line).
Qed.

End Parser.




(** C8.  The two lines of the example give the one interval from 12.34 to
    45.60; what follows a [|] is dropped, the text before it being
    trimmed and scanned; and a begin marker without an end marker after it
    gives no interval. *)
Theorem detectSilence_example :
  detectSilence GoFmt.Sscanf_f (Some example_output)
  = Some [mkSilence 12.34 45.60]
  /\ (forall (scan : string -> option float64) (s t : string),
        GoStrings.Contains s "|" = false ->
        parseSilenceTime scan (s ++ "|" ++ t) = scan (GoStrings.TrimSpace s))
  /\ parseSilenceTime GoFmt.Sscanf_f " 45.60 | silence_duration: 33.26"
     = Some 45.60%float
  /\ detectSilence GoFmt.Sscanf_f (Some "silence_start: 12.34") = Some [].
Proof.
  split; [vm_compute; reflexivity|].
  split; [|split; vm_compute; reflexivity].
  intros scan s t Hs. unfold parseSilenceTime, GoStrings.Split.
  now rewrite split_go_bar.
Qed.

Lemma detectSilence_example_witness :
  parseSilenceTime GoFmt.Sscanf_f ("45.60 " ++ "|" ++ " silence_duration: 33.26")
  = GoFmt.Sscanf_f (GoStrings.TrimSpace "45.60 ").
Proof.
  apply (proj1 (proj2 detectSilence_example)). vm_compute. reflexivity.
Defined.

(** ** SplitPlanner *)

Section Planner.

Variables D L : float64.
Variable sps : list SilencePoint.

Lemma inRange_weaken (c minDiff : float64) (sp : SilencePoint) :
  belowIdeal L minDiff ->
  inRange c minDiff sp = true -> inRange c L sp = true.
Proof.
  intros [-> | Hlt]; [trivial|]. unfold inRange.
  rewrite !andb_true_iff. intros [Hwin Hdiff]. split; [exact Hwin|].
  exact (flt_trans _ _ _ Hdiff Hlt).
Qed.

Lemma fold_pick (c : float64) (l : list SilencePoint) :
  forall st : float64 * float64,
    belowIdeal L (snd st) ->
    belowIdeal L (snd (fold_left (pick c) l st))
    /\ (fold_left (pick c) l st = st
        \/ exists sp, sp ∈ l /\ SilEnd sp = fst (fold_left (pick c) l st)
                      /\ inRange c L sp = true).
Proof.
  induction l as [|sp l IH]; intros st Hst; simpl.
  - split; [assumption|now left].
  - unfold pick at 2 4 6. destruct (inRange c (snd st) sp) eqn:Hin.
    + set (st1 := (SilEnd sp, _)).
      assert (Hst1 : belowIdeal L (snd st1)).
      { right. destruct Hst as [<- | Hlt].
        - unfold inRange in Hin. rewrite !andb_true_iff in Hin. apply Hin.
        - unfold inRange in Hin. rewrite !andb_true_iff in Hin.
          exact (flt_trans _ _ _ (proj2 Hin) Hlt). }
      destruct (IH st1 Hst1) as [Hb [Heq | (sp' & Hsp' & He & Hr)]].
      * split; [assumption|]. right. exists sp. rewrite Heq.
        split; [left|split; [reflexivity|]].
        now apply inRange_weaken with (snd st).
      * split; [assumption|]. right. exists sp'.
        split; [now right|now split].
    + destruct (IH st Hst) as [Hb [Heq | (sp' & Hsp' & He & Hr)]].
      * split; [assumption|now left].
      * split; [assumption|]. right. exists sp'.
        split; [now right|now split].
Qed.

(** [bestTime] is the raw target or the end of a qualifying interval. *)
Lemma bestTimeFor_cases (c : float64) :
  bestTimeFor L sps c = c
  \/ exists sp, sp ∈ sps /\ SilEnd sp = bestTimeFor L sps c
                /\ inRange c L sp = true.
Proof.
  unfold bestTimeFor.
  destruct (fold_pick c sps (c, L)) as [_ [-> | H]]; [now left| |]; auto.
Qed.

(** Without a qualifying interval [bestTime] stays the raw target. *)
Lemma bestTimeFor_fallback (c : float64) :
  (forall sp, sp ∈ sps -> inRange c L sp = false) ->
  bestTimeFor L sps c = c.
Proof.
  unfold bestTimeFor. intros Hnone.
  assert (H : fold_left (pick c) sps (c, L) = (c, L)); [|now rewrite H].
  induction sps as [|sp l IH]; simpl; [reflexivity|].
  unfold pick at 2. simpl.
  rewrite (Hnone sp) by left. apply IH.
  intros sp' Hsp'. apply Hnone. now right.
Qed.

Lemma nextTarget_cons (target b : float64) (l : list float64) :
  nextTarget L target (b :: l) = nextTarget L (b + L)%float l.
Proof. unfold nextTarget. rewrite last_cons. now destruct (last l). Qed.

Lemma planned_app (target : float64) (l1 l2 : list float64) :
  planned L sps target l1 ->
  planned L sps (nextTarget L target l1) l2 ->
  planned L sps target (l1 ++ l2).
Proof.
  revert target. induction l1 as [|b l1 IH]; intros target H1 H2.
  - exact H2.
  - destruct H1 as [Hb H1]. split; [exact Hb|]. apply IH; [exact H1|].
    now rewrite <- (nextTarget_cons target).
Qed.

Lemma nextTarget_snoc (target b : float64) (l : list float64) :
  nextTarget L target (l ++ [b]) = (b + L)%float.
Proof. unfold nextTarget. now rewrite last_snoc. Qed.

Lemma splitStep_inv (st st' : float64 * list float64) :
  planInv L sps st -> splitStep D L sps st = Some st' -> planInv L sps st'.
Proof.
  destruct st as [c acc]. unfold planInv, splitStep. simpl.
  intros [Hp Hc].
  destruct (c <? D)%float; [|discriminate].
  destruct (D <=? bestTimeFor L sps c)%float; [discriminate|].
  intros [= <-]. simpl. rewrite nextTarget_snoc. split; [|reflexivity].
  apply planned_app; [exact Hp|]. rewrite <- Hc. simpl.
  split; [|exact I].
  destruct (bestTimeFor_cases c) as [-> | (sp & Hsp & He & Hr)];
    [now left|right; eauto].
Qed.

Lemma splitIter_inv (n : nat) :
  forall st, planInv L sps st -> planInv L sps (splitIter D L sps n st).
Proof.
  induction n as [|n IH]; intros st Hst; simpl; [exact Hst|].
  destruct (splitStep D L sps st) as [st'|] eqn:Hstep; [|exact Hst].
  apply IH. eapply splitStep_inv; eassumption.
Qed.

(** Every split point that is recorded lies below the total duration. *)
Lemma splitStep_below (st st' : float64 * list float64) :
  Forall (fun best => flt best D) (snd st) ->
  splitStep D L sps st = Some st' ->
  Forall (fun best => flt best D) (snd st').
Proof.
  destruct st as [c acc]. unfold splitStep. simpl. intros Hacc.
  destruct (c <? D)%float eqn:Hlt; [|discriminate].
  destruct (D <=? bestTimeFor L sps c)%float eqn:Hge; [discriminate|].
  intros [= <-]. simpl. apply Forall_app. split; [exact Hacc|].
  constructor; [|constructor].
  destruct (bestTimeFor_cases c) as [-> | (sp & _ & He & Hr)];
    [exact Hlt|].
  unfold inRange in Hr. rewrite !andb_true_iff in Hr.
  destruct Hr as [[Hlow _] _]. rewrite He in Hlow.
  exact (flt_total _ _ _ _ Hlow Hlt Hge).
Qed.

Lemma splitIter_below (n : nat) :
  forall st,
    Forall (fun best => flt best D) (snd st) ->
    Forall (fun best => flt best D) (snd (splitIter D L sps n st)).
Proof.
  induction n as [|n IH]; intros st Hst; simpl; [exact Hst|].
  destruct (splitStep D L sps st) as [st'|] eqn:Hstep; [|exact Hst].
  apply IH. eapply splitStep_below; eassumption.
Qed.

(** With an ideal chunk duration above zero the targets and the split
    points that are recorded lie above zero. *)
Lemma splitStep_above (st st' : float64 * list float64) :
  flt 0 L ->
  flt 0 (fst st) /\ Forall (flt 0) (snd st) ->
  splitStep D L sps st = Some st' ->
  flt 0 (fst st') /\ Forall (flt 0) (snd st').
Proof.
  destruct st as [c acc]. unfold splitStep. simpl. intros HL [Hc Hacc].
  destruct (c <? D)%float; [|discriminate].
  destruct (D <=? bestTimeFor L sps c)%float; [discriminate|].
  intros [= <-]. simpl.
  assert (Hbest : flt 0 (bestTimeFor L sps c)).
  { destruct (bestTimeFor_cases c) as [-> | (sp & _ & He & Hr)];
      [exact Hc|].
    unfold inRange in Hr. rewrite !andb_true_iff in Hr.
    destruct Hr as [[Hlow _] _]. rewrite He in Hlow.
    exact (float_above_half_pos _ _ Hc Hlow). }
  split; [now apply float_add_pos|].
  apply Forall_app. split; [exact Hacc|]. now repeat constructor.
Qed.

Lemma splitIter_above (n : nat) :
  flt 0 L ->
  forall st,
    flt 0 (fst st) /\ Forall (flt 0) (snd st) ->
    flt 0 (fst (splitIter D L sps n st))
    /\ Forall (flt 0) (snd (splitIter D L sps n st)).
Proof.
  intros HL. induction n as [|n IH]; intros st Hst; simpl; [exact Hst|].
  destruct (splitStep D L sps st) as [st'|] eqn:Hstep; [|exact Hst].
  apply IH. eapply splitStep_above; eassumption.
Qed.

Lemma splitLoop_splitIter (fuel : nat) :
  forall st l,
    splitLoop D L sps fuel st = Some l ->
    l = snd (splitIter D L sps fuel st).
Proof.
  induction fuel as [|fuel IH]; intros st l; simpl; [discriminate|].
  destruct (splitStep D L sps st) as [st'|].
  - apply IH.
  - now intros [= <-].
Qed.

End Planner.




Section Stall.

(** The run of the README's example: 541 seconds in five chunks. *)
Let D : float64 := 541%float.
Let L : float64 := (541 / 5)%float.
Let c : float64 := (430.2 + 541 / 5)%float.

Lemma stall_step (acc : list float64) :
  splitStep D L stall_silence (c, acc) = Some (c, (acc ++ [430.2%float])%list).
Proof. vm_compute. reflexivity. Qed.

Lemma stall_iter (n : nat) :
  forall acc,
    splitIter D L stall_silence n (c, acc)
    = (c, (acc ++ repeat 430.2%float n)%list).
Proof.
  induction n as [|n IH]; intros acc.
  - simpl. now rewrite app_nil_r.
  - cbn [splitIter]. rewrite stall_step, IH, <- app_assoc. reflexivity.
Qed.

Lemma stall_loop (fuel : nat) :
  forall acc, splitLoop D L stall_silence fuel (c, acc) = None.
Proof.
  induction fuel as [|fuel IH]; intros acc; [reflexivity|].
  cbn [splitLoop]. rewrite stall_step. apply IH.
Qed.

(** Running the two loops through an iteration that does not leave. *)
Lemma splitIter_step (D' L' : float64) (sps : list SilencePoint) (n : nat)
  (st st' : float64 * list float64) :
  splitStep D' L' sps st = Some st' ->
  splitIter D' L' sps (S n) st = splitIter D' L' sps n st'.
Proof. intros H. cbn [splitIter]. now rewrite H. Qed.

Lemma splitLoop_step (D' L' : float64) (sps : list SilencePoint) (n : nat)
  (st st' : float64 * list float64) :
  splitStep D' L' sps st = Some st' ->
  splitLoop D' L' sps (S n) st = splitLoop D' L' sps n st'.
Proof. intros H. cbn [splitLoop]. now rewrite H. Qed.

Lemma stall_steps :
  splitStep D L stall_silence (L, [])
  = Some ((102.5 + L)%float, [102.5%float])
  /\ splitStep D L stall_silence ((102.5 + L)%float, [102.5%float])
     = Some ((215.3 + L)%float, [102.5; 215.3]%float)
  /\ splitStep D L stall_silence ((215.3 + L)%float, [102.5; 215.3]%float)
     = Some ((318.7 + L)%float, [102.5; 215.3; 318.7]%float)
  /\ splitStep D L stall_silence
       ((318.7 + L)%float, [102.5; 215.3; 318.7]%float)
     = Some (c, [102.5; 215.3; 318.7; 430.2]%float).
Proof. repeat split; vm_compute; reflexivity. Qed.

Lemma zero_step (acc : list float64) :
  splitStep 1 0 [] (0%float, acc) = Some (0%float, (acc ++ [0%float])%list).
Proof. vm_compute. reflexivity. Qed.

Lemma zero_iter (n : nat) :
  forall acc,
    splitIter 1 0 [] n (0%float, acc)
    = (0%float, (acc ++ repeat 0%float n)%list).
Proof.
  induction n as [|n IH]; intros acc.
  - simpl. now rewrite app_nil_r.
  - cbn [splitIter]. rewrite zero_step, IH, <- app_assoc. reflexivity.
Qed.

End Stall.

(** X1.  With an ideal chunk duration above zero, every split point the
    planner records, after any number of iterations and in any sequence it
    returns, lies above zero and below the total duration. *)
Theorem calculateSplitTimes_bounds (D L : float64)
  (sps : list SilencePoint) :
  flt 0 L ->
  (forall n,
      Forall (fun sp => flt 0 sp /\ flt sp D)
        (snd (splitIter D L sps n (L, []))))
  /\ (forall fuel splits,
        calculateSplitTimes D L sps fuel = Some splits ->
        Forall (fun sp => flt 0 sp /\ flt sp D) splits).
Proof.
  intros HL.
  assert (Hiter : forall n,
             Forall (fun sp => flt 0 sp /\ flt sp D)
               (snd (splitIter D L sps n (L, [])))).
  { intros n. apply Forall_and. split.
    - apply splitIter_above; [exact HL|]. split; [exact HL|constructor].
    - apply splitIter_below. constructor. }
  split; [exact Hiter|].
  intros fuel splits Hret. unfold calculateSplitTimes in Hret.
  rewrite (splitLoop_splitIter _ _ _ _ _ _ Hret). apply Hiter.
Qed.

Lemma calculateSplitTimes_bounds_witness :
  Forall (fun sp => flt 0 sp /\ flt sp 300) [95; 205]%float.
Proof.
  apply (proj2 (calculateSplitTimes_bounds 300 100
                  [mkSilence 90 95; mkSilence 200 205] eq_refl) 10%nat).
  vm_compute. reflexivity.
Defined.

(** With an ideal chunk duration of 0 and a total duration of 1 the
    planner records the split point 0 at every iteration: 0 is not above
    zero, the split points do not increase, and the planner has not
    returned after a thousand iterations. *)
Lemma calculateSplitTimes_zero_chunk_duration :
  splitIter 1 0 [] 3 (0%float, []) = (0%float, [0; 0; 0]%float)
  /\ (0 <? 0)%float = false
  /\ calculateSplitTimes 1 0 [] 1000 = None.
Proof.
  repeat split; vm_compute; reflexivity.
Qed.

(** C2.  The planner does not return on the README's example: a
    recording of 541 seconds planned in five chunks of 541/5 = 108.2 seconds, with silence
    intervals ending at 102.5, 215.3, 318.7 and 430.2.  The planner records
    these four split points; the next target, 430.2 + 108.2, is rounded
    down, so that its distance to 430.2 is below the ideal chunk duration,
    and 430.2 is chosen again, at this iteration and at every one after
    it: the planner records the same split point for ever and never
    returns.  With an ideal chunk duration of 0 it records 0 at every
    iteration. *)
Theorem calculateSplitTimes_stalls :
  (forall fuel,
      calculateSplitTimes 541 (541 / 5) stall_silence fuel = None)
  /\ (forall n,
        splitIter 541 (541 / 5) stall_silence (4 + n) ((541 / 5)%float, [])
        = ((430.2 + 541 / 5)%float,
           ([102.5; 215.3; 318.7; 430.2] ++ repeat 430.2 n)%float%list))
  /\ ((430.2 + 541 / 5) - 430.2 <? 541 / 5)%float = true
  /\ (forall n,
        splitIter 1 0 [] n (0%float, []) = (0%float, repeat 0%float n)).
Proof.
  destruct stall_steps as (H1 & H2 & H3 & H4).
  split; [|split; [|split]].
  - intros fuel. unfold calculateSplitTimes.
    do 4 (destruct fuel as [|fuel]; [vm_compute; reflexivity|]).
    rewrite (splitLoop_step _ _ _ _ _ _ H1), (splitLoop_step _ _ _ _ _ _ H2),
      (splitLoop_step _ _ _ _ _ _ H3), (splitLoop_step _ _ _ _ _ _ H4).
    apply stall_loop.
  - intros n. change (4 + n)%nat with (S (S (S (S n)))).
    rewrite (splitIter_step _ _ _ _ _ _ H1), (splitIter_step _ _ _ _ _ _ H2),
      (splitIter_step _ _ _ _ _ _ H3), (splitIter_step _ _ _ _ _ _ H4).
    apply stall_iter.
  - vm_compute. reflexivity.
  - intros n. apply (zero_iter n []).
Qed.

(** ** ChunkExtractor *)

Section Extractor.

Local Open Scope nat_scope.

Variable tempDir : string.
Variable now : nat -> Z.
Variable probe : option float64.
Variable ffmpeg : ExtractCmd -> ffmpegExit.
Variable audioPath : string.
Variable splitTimes : list float64.

Local Abbreviation path := (chunkPath tempDir now).
Local Abbreviation cmd := (extractCmd tempDir now audioPath splitTimes).
Local Abbreviation chunk := (chunkOf tempDir now splitTimes).

Lemma removeChunks_spec (chunks : list AudioChunk) (fs : gset string) :
  removeChunks chunks fs = fs ∖ list_to_set (Path <$> chunks).
Proof.
  unfold removeChunks. revert fs.
  induction chunks as [|c chunks IH]; intros fs; simpl.
  - set_solver.
  - rewrite IH. set_solver.
Qed.

(** The index in the name of a chunk file tells the paths of one call
    apart, whatever the clock returns. *)
Lemma chunkPath_inj (i j : nat) : path i = path j -> i = j.
Proof.
  unfold chunkPath. destruct (Join_last_element tempDir) as [prefix Hjoin].
  unfold chunkName.
  change ("whisper_chunk_" ++ ?t) with (String "w" ("hisper_chunk_" ++ t)).
  rewrite !Hjoin;
    try discriminate;
    try (apply Contains_byte; rewrite !bytes_app, !Forall_app;
         repeat split;
         first [ apply Contains_byte, fmt_d_bytes; [reflexivity|discriminate]
               | repeat constructor; discriminate ]).
  intros H. apply append_inv_head in H. injection H as H.
  apply (append_inv_head "") in H.
  apply append_split_at in H as [_ H];
    [|apply fmt_d_bytes; [reflexivity|discriminate]..].
  apply append_split_at in H as [H _];
    [|apply fmt_d_bytes; [reflexivity|discriminate]..].
  unfold GoFmt.fmt_d in H.
  destruct (Z.ltb_spec (Z.of_nat i) 0); [lia|].
  destruct (Z.ltb_spec (Z.of_nat j) 0); [lia|].
  apply digits_of_inj in H; lia.
Qed.

(** The loop over the split points, from chunk [i] on: either every
    command succeeds and every chunk file is there, or the first command
    that fails has the chunks made so far removed, the output of the
    failed command being left where the command has written it. *)
Lemma extractLoop_spec (rest : list float64) :
  forall (i : nat) (chunks : list AudioChunk) (fs : gset string),
    i <= length splitTimes ->
    drop i splitTimes = rest ->
    ((forall j, i <= j < length splitTimes -> ffmpeg (cmd j) = Done)
     /\ extractLoop tempDir now ffmpeg audioPath i rest
          (startOfChunk splitTimes i) chunks fs
        = (fs ∪ list_to_set (path <$> seq i (length rest)),
           inr (startOfChunk splitTimes (length splitTimes),
                (chunks ++ (chunk <$> seq i (length rest)))%list)))
    \/ (exists k wrote,
          i <= k < length splitTimes
          /\ ffmpeg (cmd k) = Failed wrote
          /\ (forall j, i <= j < k -> ffmpeg (cmd j) = Done)
          /\ extractLoop tempDir now ffmpeg audioPath i rest
               (startOfChunk splitTimes i) chunks fs
             = (removeChunks (chunks ++ (chunk <$> seq i (k - i)))%list
                  (afterRun (Failed wrote) (path k)
                     (fs ∪ list_to_set (path <$> seq i (k - i)))),
                inl ErrCreateChunk)).
Proof using Type*.
  induction rest as [|endTime rest IH]; intros i chunks fs Hle Hdrop.
  - left. assert (Hi : i = length splitTimes).
    { apply (f_equal length) in Hdrop. rewrite length_drop in Hdrop.
      simpl in Hdrop. lia. }
    subst i. split; [intros j Hj; lia|]. simpl.
    now rewrite app_nil_r, union_empty_r_L.
  - assert (Hi : splitTimes !! i = Some endTime).
    { rewrite <- (Nat.add_0_r i), <- lookup_drop, Hdrop. reflexivity. }
    assert (Hlt : i < length splitTimes) by (eapply lookup_lt_Some; eauto).
    assert (Hdrop' : drop (S i) splitTimes = rest).
    { rewrite <- (Nat.add_1_r i), <- drop_drop, Hdrop. reflexivity. }
    cbn [extractLoop].
    assert (Hcmd : mkCmd audioPath (startOfChunk splitTimes i) (Some endTime)
                     (path i) = cmd i).
    { unfold extractCmd. now rewrite Hi. }
    rewrite Hcmd.
    destruct (ffmpeg (cmd i)) as [|wrote] eqn:Hexit.
    + assert (Hstart : endTime = startOfChunk splitTimes (S i)).
      { unfold startOfChunk. now rewrite Hi. }
      rewrite Hstart. cbn [afterRun].
      destruct (IH (S i)
                  (chunks ++ [mkChunk (path i) (startOfChunk splitTimes i)])%list
                  (fs ∪ {[path i]}) Hlt Hdrop')
        as [[Hall Hrun] | (k & w & Hk & Hfail & Hbefore & Hrun)].
      * left. split.
        { intros j Hj. destruct (decide (j = i)) as [-> | Hne];
            [assumption|apply Hall; lia]. }
        rewrite Hrun. simpl. f_equal.
        { set_solver. }
        rewrite <- app_assoc. reflexivity.
      * right. exists k, w. split; [lia|]. split; [assumption|]. split.
        { intros j Hj. destruct (decide (j = i)) as [-> | Hne];
            [assumption|apply Hbefore; lia]. }
        rewrite Hrun. replace (k - i) with (S (k - S i)) by lia. simpl.
        f_equal. f_equal.
        { rewrite <- app_assoc. reflexivity. }
        destruct w; set_solver.
    + right. exists i, wrote. split; [lia|]. split; [assumption|].
      split; [intros j Hj; lia|].
      rewrite Nat.sub_diag. simpl. rewrite app_nil_r.
      do 2 f_equal. destruct wrote; set_solver.
Qed.

End Extractor.

(** C6.  When the extraction of one of the chunks asked for fails,
    [createAudioChunks] returns an error and no chunk, and it removes the
    file of every chunk it had made before; but it does not remove the
    output of the command that failed: when that command has written its
    file, the file stays, although the chunks asked for have not all been
    produced.  The paths of the chunks of one call differ from one
    another, so this file is none of those removed.  On the example run,
    in which the second of three extractions fails after writing its
    output, the file system that was empty before the call holds that
    output after it.  When no extraction fails, every chunk asked for is
    returned and its file is there. *)
Theorem createAudioChunks_leaves_failed_output (tempDir : string)
  (now : nat -> Z) (probe : option float64)
  (ffmpeg : ExtractCmd -> ffmpegExit) (audioPath : string)
  (splitTimes : list float64) (fs : gset string) :
  let n := requested probe splitTimes in
  let cmd := extractCmd tempDir now audioPath splitTimes in
  let path := chunkPath tempDir now in
  let out :=
    createAudioChunks tempDir now probe ffmpeg audioPath splitTimes fs in
  (forall i j : nat, path i = path j -> i = j)
  /\ ((exists k, (k < n)%nat /\ ffmpeg (cmd k) <> Done) ->
      exists e k wrote,
        snd out = inl e
        /\ (k < n)%nat
        /\ ffmpeg (cmd k) = Failed wrote
        /\ (forall j, (j < k)%nat -> ffmpeg (cmd j) = Done)
        /\ fst out
           = afterRun (Failed wrote) (path k) fs ∖ chunkFiles tempDir now k
        /\ (forall j, (j < k)%nat -> path j ∉ fst out)
        /\ (wrote = true -> path k ∈ fst out))
  /\ ((forall k, (k < n)%nat -> ffmpeg (cmd k) = Done) ->
      out = (fs ∪ chunkFiles tempDir now n,
             inr (chunkOf tempDir now splitTimes <$> seq 0 n))
      /\ forall j, (j < n)%nat -> path j ∈ fst out)
  /\ createAudioChunks "/tmp" example_now (Some 300%float) example_ffmpeg
       "talk.wav" [95; 205]%float ∅
     = ({[ "/tmp/whisper_chunk_1700000000001000000_1.wav" ]},
        inl ErrCreateChunk).
Proof.
  intros n cmd path out.
  assert (Hinj : forall i j : nat, path i = path j -> i = j)
    by apply chunkPath_inj.
  split; [exact Hinj|].
  assert (Hfiles : forall k j, (j < k)%nat ->
            path j ∈ chunkFiles tempDir now k).
  { intros k j Hj. unfold chunkFiles. apply elem_of_list_to_set.
    apply list_elem_of_fmap. exists j. split; [reflexivity|].
    apply elem_of_seq. lia. }
  assert (Hfresh : forall k, path k ∉ chunkFiles tempDir now k).
  { intros k Hin. unfold chunkFiles in Hin.
    apply elem_of_list_to_set, list_elem_of_fmap in Hin as (j & Hj & Hin).
    apply Hinj in Hj. subst j. apply elem_of_seq in Hin. lia. }
  assert (Hpaths : forall k,
            Path <$> (chunkOf tempDir now splitTimes <$> seq 0 k)
            = chunkPath tempDir now <$> seq 0 k).
  { intros k. rewrite <- list_fmap_compose. reflexivity. }
  assert (Hlast : mkCmd audioPath
                    (startOfChunk splitTimes (length splitTimes)) None
                    (chunkPath tempDir now (length splitTimes))
                  = cmd (length splitTimes)).
  { unfold cmd, extractCmd. now rewrite (lookup_ge_None_2 splitTimes). }
  assert (Hfailed : forall k wrote files,
            files = chunkFiles tempDir now k ->
            removeChunks (chunkOf tempDir now splitTimes <$> seq 0 k)
              (afterRun (Failed wrote) (path k) (fs ∪ files))
            = afterRun (Failed wrote) (path k) fs ∖ chunkFiles tempDir now k
            /\ (forall j, (j < k)%nat ->
                  path j ∉ afterRun (Failed wrote) (path k) fs
                             ∖ chunkFiles tempDir now k)
            /\ (wrote = true ->
                path k ∈ afterRun (Failed wrote) (path k) fs
                           ∖ chunkFiles tempDir now k)).
  { intros k wrote files ->. rewrite removeChunks_spec, Hpaths.
    fold (chunkFiles tempDir now k). specialize (Hfresh k).
    split; [destruct wrote; cbn [afterRun]; set_solver|].
    split.
    - intros j Hj. specialize (Hfiles _ _ Hj). set_solver.
    - intros ->. cbn [afterRun]. set_solver. }
  split; [|split; [|vm_compute; reflexivity]].
  all: destruct (extractLoop_spec tempDir now ffmpeg audioPath splitTimes
              splitTimes 0%nat [] fs (Nat.le_0_l _) eq_refl)
    as [[Hall Hrun] | (k & wrote & Hk & Hfail & Hbefore & Hrun)].
  - (* every split point gave its chunk; the last chunk may fail *)
    intros (k & Hk & Hne).
    assert (Hout : out
      = if (startOfChunk splitTimes (length splitTimes)
              <? default 0 probe)%float
        then match ffmpeg (cmd (length splitTimes)) with
             | Done => out
             | Failed wrote =>
                 (removeChunks
                    (chunkOf tempDir now splitTimes
                       <$> seq 0 (length splitTimes))
                    (afterRun (Failed wrote) (path (length splitTimes))
                       (fs ∪ chunkFiles tempDir now (length splitTimes))),
                  inl ErrCreateLastChunk)
             end
        else out).
    { unfold out, createAudioChunks. simpl in Hrun. rewrite Hrun, Hlast.
      destruct (_ <? _)%float; [|reflexivity].
      now destruct (ffmpeg (cmd (length splitTimes))). }
    unfold n, requested in Hk.
    destruct (startOfChunk splitTimes (length splitTimes)
                <? default 0 probe)%float eqn:Htest.
    + destruct (decide (k = length splitTimes)) as [-> | Hlt];
        [|rewrite Hall in Hne by lia; congruence].
      destruct (ffmpeg (cmd (length splitTimes))) as [|wrote] eqn:Hexit;
        [congruence|].
      rewrite Hout. exists ErrCreateLastChunk, (length splitTimes), wrote.
      cbn [fst snd].
      destruct (Hfailed (length splitTimes) wrote _ eq_refl) as (-> & H1 & H2).
      split; [reflexivity|].
      split; [unfold n, requested; rewrite Htest; lia|].
      split; [assumption|]. split; [intros j Hj; apply Hall; lia|].
      split; [reflexivity|]. split; assumption.
    + rewrite Hall in Hne by lia. congruence.
  - (* the extraction at split point [k] failed *)
    intros _.
    assert (Hout : out
      = (removeChunks (chunkOf tempDir now splitTimes <$> seq 0 k)
           (afterRun (Failed wrote) (path k) (fs ∪ chunkFiles tempDir now k)),
         inl ErrCreateChunk)).
    { unfold out, createAudioChunks. rewrite Nat.sub_0_r in Hrun.
      simpl in Hrun. rewrite Hrun. reflexivity. }
    rewrite Hout. exists ErrCreateChunk, k, wrote. cbn [fst snd].
    destruct (Hfailed k wrote _ eq_refl) as (-> & H1 & H2).
    split; [reflexivity|]. split; [unfold n, requested; lia|].
    split; [assumption|]. split; [intros j Hj; apply Hbefore; lia|].
    split; [reflexivity|]. split; assumption.
  - (* no extraction fails *)
    intros Hok.
    assert (Hout : out
      = if (startOfChunk splitTimes (length splitTimes)
              <? default 0 probe)%float
        then (fs ∪ chunkFiles tempDir now (length splitTimes)
                 ∪ {[chunkPath tempDir now (length splitTimes)]},
              inr ((chunkOf tempDir now splitTimes
                      <$> seq 0 (length splitTimes))
                     ++ [chunkOf tempDir now splitTimes
                           (length splitTimes)])%list)
        else (fs ∪ chunkFiles tempDir now (length splitTimes),
              inr (chunkOf tempDir now splitTimes
                     <$> seq 0 (length splitTimes)))).
    { unfold out, createAudioChunks. simpl in Hrun. rewrite Hrun, Hlast.
      destruct (_ <? _)%float eqn:Hlt; [|reflexivity].
      rewrite Hok; [reflexivity|]. unfold n, requested. rewrite Hlt. lia. }
    rewrite Hout. unfold n, requested.
    destruct (startOfChunk splitTimes (length splitTimes)
                <? default 0 probe)%float.
    + rewrite Nat.add_1_r, seq_S, fmap_app. simpl.
      assert (Hset : fs ∪ chunkFiles tempDir now (length splitTimes)
                        ∪ {[chunkPath tempDir now (length splitTimes)]}
                     = fs ∪ chunkFiles tempDir now (S (length splitTimes))).
      { unfold chunkFiles. rewrite seq_S, fmap_app, list_to_set_app_L.
        simpl. set_solver. }
      rewrite Hset. split; [reflexivity|].
      intros j Hj. apply elem_of_union_r, Hfiles. lia.
    + rewrite Nat.add_0_r. split; [reflexivity|].
      intros j Hj. apply elem_of_union_r, Hfiles. lia.
  - (* an extraction failed, so not all exit with success *)
    intros Hok. rewrite Hok in Hfail; [discriminate|].
    unfold n, requested. lia.
Qed.

Lemma createAudioChunks_leaves_failed_output_witness :
  exists e k wrote,
    snd (createAudioChunks "/tmp" example_now (Some 300%float) example_ffmpeg
           "talk.wav" [95; 205]%float ∅) = inl e
    /\ (k < requested (Some 300%float) [95; 205]%float)%nat
    /\ example_ffmpeg
         (extractCmd "/tmp" example_now "talk.wav" [95; 205]%float k)
       = Failed wrote
    /\ (forall j, (j < k)%nat ->
          example_ffmpeg
            (extractCmd "/tmp" example_now "talk.wav" [95; 205]%float j)
          = Done)
    /\ fst (createAudioChunks "/tmp" example_now (Some 300%float)
              example_ffmpeg "talk.wav" [95; 205]%float ∅)
       = afterRun (Failed wrote) (chunkPath "/tmp" example_now k) ∅
           ∖ chunkFiles "/tmp" example_now k
    /\ (forall j, (j < k)%nat ->
          chunkPath "/tmp" example_now j
          ∉ fst (createAudioChunks "/tmp" example_now (Some 300%float)
                   example_ffmpeg "talk.wav" [95; 205]%float ∅))
    /\ (wrote = true ->
        chunkPath "/tmp" example_now k
        ∈ fst (createAudioChunks "/tmp" example_now (Some 300%float)
                 example_ffmpeg "talk.wav" [95; 205]%float ∅)).
Proof.
  apply (proj1 (proj2 (createAudioChunks_leaves_failed_output "/tmp"
                  example_now (Some 300%float) example_ffmpeg "talk.wav"
                  [95; 205]%float ∅))).
  exists 1%nat. split.
  - vm_compute. lia.
  - vm_compute. discriminate.
Defined.

(** ** ResultMerger *)

Section Merger.

Local Open Scope nat_scope.

Lemma int_succ_small (z : Z) :
  (0 <= z < int_max)%Z -> int_succ z = (z + 1)%Z.
Proof.
  unfold int_succ, wrap_int, int_max. intros Hz.
  rewrite Z.mod_small by lia. lia.
Qed.

Lemma number_app (id : Z) (ps qs : list (float64 * float64 * string)) :
  number id (ps ++ qs)
  = (number id ps ++ number (Nat.iter (length ps) int_succ id) qs)%list.
Proof.
  revert id. induction ps as [|p ps IH]; intros id; simpl; [reflexivity|].
  rewrite IH. do 3 f_equal. clear IH.
  induction (length ps) as [|n IHn]; simpl; [reflexivity|].
  now rewrite IHn.
Qed.

Lemma payload_number (id : Z) (ps : list (float64 * float64 * string)) :
  map payload (number id ps) = ps.
Proof.
  revert id. induction ps as [|[[s e] t] ps IH]; intros id; simpl;
    [reflexivity|]. now rewrite IH.
Qed.

Lemma length_number (id : Z) (ps : list (float64 * float64 * string)) :
  length (number id ps) = length ps.
Proof. rewrite <- (payload_number id ps) at 2. now rewrite length_map. Qed.

Lemma ids_number (id : Z) (ps : list (float64 * float64 * string)) :
  (0 <= id)%Z -> (id + Z.of_nat (length ps) <= int_max)%Z ->
  map ID (number id ps)
  = map (fun k => (id + Z.of_nat k)%Z) (seq 0 (length ps)).
Proof.
  revert id. induction ps as [|p ps IH]; intros id H0 Hmax; simpl in *;
    [reflexivity|].
  f_equal; [lia|].
  rewrite int_succ_small by lia. rewrite IH by lia.
  rewrite <- seq_shift, map_map. apply map_ext. intros k. lia.
Qed.

(** The inner loop appends the shifted segments, numbered from the
    counter. *)
Lemma fold_appendSegment (offset : float64) (segs : list Segment)
  (acc : list Segment * Z) :
  fold_left (appendSegment offset) segs acc
  = ((fst acc ++ number (snd acc) (map (shifted offset) segs))%list,
     Nat.iter (length segs) int_succ (snd acc)).
Proof.
  revert acc. induction segs as [|seg segs IH]; intros [l id]; simpl.
  - now rewrite app_nil_r.
  - rewrite IH. simpl. rewrite <- app_assoc. simpl. f_equal.
    clear IH. induction (length segs) as [|n IHn]; simpl; [reflexivity|].
    now rewrite IHn.
Qed.

Lemma mergeOne_segments (i : nat) (result : TranscriptionResult)
  (chunk : AudioChunk) (st : mergeState) :
  mSegments (mergeOne i result chunk st)
  = (mSegments st ++ number (segmentID st) (emitted i result chunk))%list
  /\ segmentID (mergeOne i result chunk st)
     = Nat.iter (length (emitted i result chunk)) int_succ (segmentID st).
Proof.
  unfold mergeOne, emitted. rewrite fold_appendSegment. simpl.
  destruct (Segments result) as [|seg segs] eqn:Hsegs.
  - simpl. destruct i as [|i]; simpl.
    + now rewrite app_nil_r.
    + now rewrite app_nil_r.
  - simpl. rewrite length_map. split; reflexivity.
Qed.

Lemma mergeLoop_segments (chunks : list AudioChunk)
  (results : list TranscriptionResult) :
  forall (i : nat) (st st' : mergeState),
    mergeLoop chunks i results st = Some st' ->
    mSegments st'
    = (mSegments st
         ++ number (segmentID st) (emittedFrom i results chunks))%list.
Proof.
  induction results as [|result rest IH]; intros i st st' Hrun; simpl in *.
  - injection Hrun as <-. now rewrite app_nil_r.
  - destruct (chunks !! i) as [chunk|] eqn:Hc; [|discriminate].
    apply IH in Hrun. rewrite Hrun.
    destruct (mergeOne_segments i result chunk st) as [-> ->].
    now rewrite number_app, app_assoc.
Qed.

(** With a chunk for every result the loop runs to its end. *)
Lemma mergeLoop_total (chunks : list AudioChunk)
  (results : list TranscriptionResult) :
  forall (i : nat) (st : mergeState),
    i + length results <= length chunks ->
    exists st', mergeLoop chunks i results st = Some st'.
Proof.
  induction results as [|result rest IH]; intros i st Hlen; simpl in *.
  - eauto.
  - destruct (lookup_lt_is_Some_2 chunks i) as [chunk Hc]; [lia|].
    rewrite Hc. apply IH. lia.
Qed.

Lemma length_emitted (i : nat) (result : TranscriptionResult)
  (chunk : AudioChunk) :
  length (emitted i result chunk) <= 1 + length (Segments result).
Proof.
  unfold emitted. destruct (Segments result); simpl.
  - destruct (0 <? i); simpl; lia.
  - rewrite length_map. lia.
Qed.

Lemma length_emittedFrom (chunks : list AudioChunk)
  (results : list TranscriptionResult) (i : nat) :
  length (emittedFrom i results chunks) <= segmentBudget results.
Proof.
  unfold segmentBudget. revert i.
  induction results as [|result rest IH]; intros i; simpl; [lia|].
  destruct (chunks !! i) as [chunk|]; simpl; [|lia].
  rewrite !length_app. specialize (IH (S i)).
  pose proof (length_emitted i result chunk). lia.
Qed.

Lemma mergeResults_Some (results : list TranscriptionResult)
  (chunks : list AudioChunk) (merged : TranscriptionResult) :
  mergeResults results chunks = Some merged ->
  Segments merged = number 1 (emittedFrom 0 results chunks).
Proof.
  unfold mergeResults.
  destruct (mergeLoop chunks 0 results mergeInit) as [st|] eqn:Hrun;
    [|discriminate].
  intros [= <-]. simpl. now rewrite (mergeLoop_segments _ _ _ _ _ Hrun).
Qed.

End Merger.

(** C3. With a chunk for every result, and no more segments than an
    [int] can count, [mergeResults] returns a transcript in which: the ids
    are 1, 2, ..., k; the segments, ids aside, are the contributions of
    the chunks in order, a chunk with segments contributing each of them
    once, start and end shifted by the chunk's start offset and the text
    unchanged; and the duration is the end of the last segment, or 0
    when there is none. *)
Theorem mergeResults_segments (results : list TranscriptionResult)
  (chunks : list AudioChunk) :
  (length results <= length chunks)%nat ->
  Z.of_nat (segmentBudget results) < int_max ->
  exists merged,
    mergeResults results chunks = Some merged
    /\ map ID (Segments merged) = ids_upto (length (Segments merged))
    /\ map payload (Segments merged) = emittedFrom 0 results chunks
    /\ (forall i result chunk seg segs,
          Segments result = seg :: segs ->
          emitted i result chunk
          = map (fun s => ((Start s + StartOffset chunk)%float,
                           (End_ s + StartOffset chunk)%float,
                           SegText s)) (seg :: segs))
    /\ Duration merged = match last (Segments merged) with
                         | Some seg => End_ seg
                         | None => 0%float
                         end.
Proof.
  intros Hlen Hbudget.
  destruct (mergeLoop_total chunks results 0 mergeInit Hlen) as [st Hrun].
  assert (Hm : mergeResults results chunks
               = Some (mkResult (totalText st) (mLanguage st) (mSegments st)
                         (match last (mSegments st) with
                          | Some seg => End_ seg
                          | None => 0%float
                          end)))
    by (unfold mergeResults; now rewrite Hrun).
  eexists. split; [exact Hm|].
  pose proof (mergeResults_Some _ _ _ Hm) as Hsegs. simpl in Hsegs |- *.
  pose proof (length_emittedFrom chunks results 0) as Hle.
  repeat split.
  - rewrite Hsegs, length_number, ids_number by lia.
    unfold ids_upto. rewrite <- seq_shift, map_map.
    apply map_ext. intros k. lia.
  - rewrite Hsegs. apply payload_number.
  - intros i result chunk seg segs Hs. unfold emitted. now rewrite Hs.
Qed.

Lemma mergeResults_segments_witness :
  exists merged,
    mergeResults example_results example_chunks = Some merged
    /\ map ID (Segments merged) = ids_upto (length (Segments merged))
    /\ map payload (Segments merged)
       = emittedFrom 0 example_results example_chunks
    /\ (forall i result chunk seg segs,
          Segments result = seg :: segs ->
          emitted i result chunk
          = map (fun s => ((Start s + StartOffset chunk)%float,
                           (End_ s + StartOffset chunk)%float,
                           SegText s)) (seg :: segs))
    /\ Duration merged = match last (Segments merged) with
                         | Some seg => End_ seg
                         | None => 0%float
                         end.
Proof.
  apply (mergeResults_segments example_results example_chunks).
  - simpl. lia.
  - vm_compute. reflexivity.
Defined.

Section Placeholder.

Local Open Scope nat_scope.

Lemma iter_int_succ (n : nat) (id : Z) :
  (0 <= id)%Z -> (id + Z.of_nat n <= int_max)%Z ->
  Nat.iter n int_succ id = (id + Z.of_nat n)%Z.
Proof.
  induction n as [|n IH]; intros H0 Hmax; simpl; [lia|].
  rewrite IH by lia. rewrite int_succ_small by lia. lia.
Qed.

Lemma emittedFrom_app (chunks : list AudioChunk)
  (rs1 rs2 : list TranscriptionResult) :
  forall i : nat,
    i + length rs1 <= length chunks ->
    emittedFrom i (rs1 ++ rs2) chunks
    = (emittedFrom i rs1 chunks
         ++ emittedFrom (i + length rs1) rs2 chunks)%list.
Proof.
  induction rs1 as [|r rs1 IH]; intros i Hlen; simpl in *.
  - now rewrite Nat.add_0_r.
  - destruct (lookup_lt_is_Some_2 chunks i) as [chunk Hc]; [lia|].
    rewrite Hc, IH by lia. rewrite <- app_assoc. do 2 f_equal.
    f_equal. lia.
Qed.

(** A run that returns had a chunk for every result. *)
Lemma mergeLoop_Some_length (chunks : list AudioChunk)
  (results : list TranscriptionResult) :
  forall (i : nat) (st st' : mergeState),
    mergeLoop chunks i results st = Some st' ->
    results = [] \/ i + length results <= length chunks.
Proof.
  induction results as [|result rest IH]; intros i st st' Hrun; simpl in *.
  - now left.
  - right. destruct (chunks !! i) as [chunk|] eqn:Hc; [|discriminate].
    apply lookup_lt_Some in Hc.
    destruct (IH _ _ _ Hrun) as [-> | Hle]; simpl; lia.
Qed.

Lemma mergeResults_Some_length (results : list TranscriptionResult)
  (chunks : list AudioChunk) (merged : TranscriptionResult) :
  mergeResults results chunks = Some merged ->
  results = [] \/ length results <= length chunks.
Proof.
  unfold mergeResults.
  destruct (mergeLoop chunks 0 results mergeInit) as [st|] eqn:Hrun;
    [|discriminate].
  intros _. apply (mergeLoop_Some_length _ _ _ _ _ Hrun).
Qed.

End Placeholder.

(** C5. A chunk without segments that is not the first adds exactly one
    segment to the transcript: it starts at the chunk's start offset, ends
    ten seconds later, carries the chunk's whole text and takes the next
    id.  A first chunk without segments adds nothing.  In the
    specification's example (offsets 0, 95 and 205, the second chunk
    without segments) the placeholder runs from 95 to 105 and the ids are
    1, 2, 3, 4. *)
Theorem mergeResults_placeholder :
  (forall results1 result results2 chunks merged,
     mergeResults (results1 ++ result :: results2) chunks = Some merged ->
     Segments result = [] ->
     results1 <> [] ->
     Z.of_nat (segmentBudget (results1 ++ result :: results2)) < int_max ->
     exists chunk before after,
       chunks !! length results1 = Some chunk
       /\ Segments merged
          = (before
               ++ mkSegment (Z.of_nat (length before) + 1)
                    (StartOffset chunk) (StartOffset chunk + 10)%float
                    (Text result)
               :: after)%list
       /\ map payload before = emittedFrom 0 results1 chunks
       /\ map payload after
          = emittedFrom (S (length results1)) results2 chunks)
  /\ (forall result results2 chunks merged,
        mergeResults (result :: results2) chunks = Some merged ->
        Segments result = [] ->
        map payload (Segments merged) = emittedFrom 1 results2 chunks)
  /\ option_map Segments (mergeResults example_results example_chunks)
     = Some [mkSegment 1 0 40 "one"; mkSegment 2 40 93.5 "two";
             mkSegment 3 95 105 "second";
             mkSegment 4 206.5 265 "three"].
Proof.
  split; [|split].
  - intros results1 result results2 chunks merged Hm Hnil Hne Hbudget.
    pose proof (mergeResults_Some _ _ _ Hm) as Hsegs.
    destruct (mergeResults_Some_length _ _ _ Hm) as [Habs | Hlen];
      [now destruct results1|].
    rewrite length_app in Hlen. simpl in Hlen.
    pose proof (length_emittedFrom chunks (results1 ++ result :: results2) 0)
      as Hle.
    rewrite emittedFrom_app in Hsegs, Hle by (simpl; lia).
    simpl in Hsegs, Hle.
    destruct (lookup_lt_is_Some_2 chunks (length results1)) as [chunk Hc];
      [lia|].
    rewrite Hc in Hsegs, Hle. unfold emitted in Hsegs, Hle.
    rewrite Hnil in Hsegs, Hle.
    destruct (length results1) as [|n] eqn:Hn;
      [now destruct results1|].
    simpl in Hsegs, Hle. rewrite length_app in Hle. simpl in Hle.
    rewrite number_app in Hsegs. simpl in Hsegs.
    exists chunk. eexists. eexists. split; [exact Hc|].
    split; [|split].
    + rewrite Hsegs. f_equal. f_equal.
      rewrite length_number.
      rewrite iter_int_succ by lia. f_equal. lia.
    + apply payload_number.
    + apply payload_number.
  - intros result results2 chunks merged Hm Hnil.
    pose proof (mergeResults_Some _ _ _ Hm) as Hsegs.
    rewrite Hsegs, payload_number. simpl.
    destruct (chunks !! 0%nat) as [chunk|] eqn:Hc.
    + unfold emitted. now rewrite Hnil.
    + unfold mergeResults in Hm. simpl in Hm. now rewrite Hc in Hm.
  - vm_compute. reflexivity.
Qed.

Lemma mergeResults_placeholder_witness :
  exists chunk before after,
    example_chunks !! 1%nat = Some chunk
    /\ [mkSegment 1 0 40 "one"; mkSegment 2 40 93.5 "two";
        mkSegment 3 95 105 "second"; mkSegment 4 206.5 265 "three"]
       = (before
            ++ mkSegment (Z.of_nat (length before) + 1)
                 (StartOffset chunk) (StartOffset chunk + 10)%float "second"
            :: after)%list
    /\ map payload before
       = emittedFrom 0 [mkResult "first" "en"
                          [mkSegment 1 0 40 "one"; mkSegment 2 40 93.5 "two"]
                          0] example_chunks
    /\ map payload after
       = emittedFrom 2 [mkResult "third" "en" [mkSegment 1 1.5 60 "three"] 0]
           example_chunks.
Proof.
  apply (proj1 mergeResults_placeholder
           [mkResult "first" "en"
              [mkSegment 1 0 40 "one"; mkSegment 2 40 93.5 "two"] 0]
           (mkResult "second" "" [] 0)
           [mkResult "third" "en" [mkSegment 1 1.5 60 "three"] 0]
           example_chunks
           (mkResult ("first" ++ GoStrings.newline ++ "second"
                        ++ GoStrings.newline ++ "third" ++ GoStrings.newline)
              "en"
              [mkSegment 1 0 40 "one"; mkSegment 2 40 93.5 "two";
               mkSegment 3 95 105 "second"; mkSegment 4 206.5 265 "three"]
              265)).
  - vm_compute. reflexivity.
  - reflexivity.
  - discriminate.
  - vm_compute. reflexivity.
Defined.

(** ** The merged text *)

Section MergedText.

Lemma mergeOne_text (i : nat) (result : TranscriptionResult)
  (chunk : AudioChunk) (st : mergeState) :
  totalText (mergeOne i result chunk st) = totalText st ++ chunkText result.
Proof.
  unfold mergeOne, chunkText, withLineBreak. simpl.
  destruct (String.eqb (Text result) ""); simpl.
  - now rewrite append_nil_r.
  - destruct (GoStrings.HasSuffix (Text result) GoStrings.newline);
      [reflexivity|apply append_assoc].
Qed.

Lemma mergeLoop_text (chunks : list AudioChunk)
  (results : list TranscriptionResult) :
  forall (i : nat) (st st' : mergeState),
    mergeLoop chunks i results st = Some st' ->
    totalText st' = totalText st ++ joined (map chunkText results).
Proof.
  induction results as [|result rest IH]; intros i st st' Hrun; simpl in *.
  - injection Hrun as <-. now rewrite append_nil_r.
  - destruct (chunks !! i) as [chunk|]; [|discriminate].
    rewrite (IH _ _ _ Hrun), mergeOne_text. apply append_assoc.
Qed.

Lemma chunkText_nonempty (results : list TranscriptionResult) :
  Forall (fun result => Text result <> "") results ->
  joined (map chunkText results) = spec_text results.
Proof.
  unfold spec_text. induction 1 as [|result rest Hne _ IH]; simpl;
    [reflexivity|].
  rewrite IH. unfold chunkText.
  apply String.eqb_neq in Hne. now rewrite Hne.
Qed.

End MergedText.

(** C9, as the program has it.  The merged text is the concatenation, in
    chunk order, of the chunk texts that are not empty, each followed by a
    line break unless it ends with one already; a chunk with an empty text
    adds nothing, not even a line break.  When no chunk text is empty this
    is the concatenation of every chunk text, each ending with a line
    break. *)
Theorem mergeResults_text (results : list TranscriptionResult)
  (chunks : list AudioChunk) :
  (length results <= length chunks)%nat ->
  exists merged,
    mergeResults results chunks = Some merged
    /\ Text merged = joined (map chunkText results)
    /\ (Forall (fun result => Text result <> "") results ->
        Text merged = spec_text results).
Proof.
  intros Hlen.
  destruct (mergeLoop_total chunks results 0 mergeInit Hlen) as [st Hrun].
  unfold mergeResults. rewrite Hrun. eexists. split; [reflexivity|]. simpl.
  rewrite (mergeLoop_text _ _ _ _ _ Hrun). simpl.
  split; [reflexivity|]. apply chunkText_nonempty.
Qed.

Lemma mergeResults_text_witness :
  exists merged,
    mergeResults example_results example_chunks = Some merged
    /\ Text merged = joined (map chunkText example_results)
    /\ (Forall (fun result => Text result <> "") example_results ->
        Text merged = spec_text example_results).
Proof.
  apply (mergeResults_text example_results example_chunks). simpl. lia.
Defined.

(** C9, as the specification words it, fails on a chunk whose text is
    empty: of the texts ["a"], [""] and ["b"] the program makes
    ["a\nb\n"], without the line break the wording gives the empty text. *)
Lemma mergeResults_text_skips_empty :
  option_map Text
    (mergeResults
       [mkResult "a" "" [] 0; mkResult "" "" [] 0; mkResult "b" "" [] 0]
       example_chunks)
  = Some ("a" ++ GoStrings.newline ++ "b" ++ GoStrings.newline)
  /\ spec_text
       [mkResult "a" "" [] 0; mkResult "" "" [] 0; mkResult "b" "" [] 0]
     = "a" ++ GoStrings.newline ++ GoStrings.newline
           ++ "b" ++ GoStrings.newline.
Proof. split; vm_compute; reflexivity. Qed.

(** ** The order of the merged start times *)

Section MergedOrder.

Local Open Scope nat_scope.

Lemma Sorted_app_mid (m : float64) (l1 l2 : list float64) :
  Sorted fle l1 -> Sorted fle l2 ->
  Forall (fun t => fle t m) l1 -> Forall (fle m) l2 ->
  Sorted fle (l1 ++ l2).
Proof.
  intros Hs1 Hs2 Hle Hge. induction l1 as [|a l1 IH]; simpl; [exact Hs2|].
  inversion Hs1 as [|? ? Hs1' Hhd]; subst.
  inversion Hle as [|? ? Ha Hle']; subst.
  constructor; [now apply IH|].
  destruct l1 as [|b l1]; simpl.
  - destruct Hge as [|c l2 Hc _]; constructor.
    now apply fle_trans with m.
  - inversion Hhd; subst. now constructor.
Qed.

Lemma Sorted_lookup_adj (l : list float64) :
  Sorted fle l ->
  forall i x y, l !! i = Some x -> l !! S i = Some y -> fle x y.
Proof.
  induction 1 as [|a l Hs IH Hhd]; intros i x y Hx Hy; [discriminate|].
  destruct i as [|i]; simpl in *.
  - injection Hx as <-. destruct Hhd as [|b l Hab]; [discriminate|].
    simpl in Hy. now injection Hy as <-.
  - eapply IH; eassumption.
Qed.

Lemma startOf_emitted (i : nat) (result : TranscriptionResult)
  (chunk : AudioChunk) :
  map startOf (emitted i result chunk)
  = match Segments result with
    | [] => if 0 <? i then [StartOffset chunk] else []
    | _ => correctedStarts result chunk
    end.
Proof.
  unfold emitted, correctedStarts.
  destruct (Segments result) as [|seg segs].
  - now destruct (0 <? i).
  - now rewrite map_map.
Qed.

Variable chunks : list AudioChunk.
Hypothesis offsets_sorted : Sorted fle (map StartOffset chunks).

Lemma offsets_adj (i : nat) (chunk chunk' : AudioChunk) :
  chunks !! i = Some chunk -> chunks !! S i = Some chunk' ->
  fle (StartOffset chunk) (StartOffset chunk').
Proof using offsets_sorted.
  intros Hc Hc'.
  apply (Sorted_lookup_adj _ offsets_sorted i); rewrite list_lookup_fmap.
  - now rewrite Hc.
  - now rewrite Hc'.
Qed.

Lemma emittedFrom_sorted (results : list TranscriptionResult) :
  forall i : nat,
    (forall k result chunk,
        results !! k = Some result -> chunks !! (i + k) = Some chunk ->
        inChunkWindow result chunk (chunks !! S (i + k))) ->
    Sorted fle (map startOf (emittedFrom i results chunks))
    /\ forall chunk, chunks !! i = Some chunk ->
         Forall (fle (StartOffset chunk))
                (map startOf (emittedFrom i results chunks)).
Proof using offsets_sorted.
  induction results as [|result rest IH]; intros i Hwin; simpl.
  - split; [constructor|]. intros; constructor.
  - destruct (chunks !! i) as [chunk|] eqn:Hc;
      [|split; [constructor|discriminate]].
    destruct (IH (S i)) as [IHs IHge].
    { intros k r c Hr Hk. rewrite Nat.add_succ_l, <- Nat.add_succ_r in *.
      now apply Hwin. }
    destruct (Hwin 0 result chunk eq_refl) as (Hws & Hwge & Hwle);
      [now rewrite Nat.add_0_r|].
    rewrite Nat.add_0_r in Hwle.
    rewrite map_app, startOf_emitted.
    (* the block of this chunk: sorted, above its offset, below the next *)
    assert (Hblock :
      let block := match Segments result with
                   | [] => if 0 <? i then [StartOffset chunk] else []
                   | _ => correctedStarts result chunk
                   end in
      Sorted fle block
      /\ Forall (fle (StartOffset chunk)) block
      /\ forall chunk', chunks !! S i = Some chunk' ->
           Forall (fun t => fle t (StartOffset chunk')) block).
    { simpl. destruct (Segments result) as [|seg segs] eqn:Hsegs.
      - destruct i as [|i]; simpl.
        + repeat split; intros; constructor.
        + destruct (lookup_lt_is_Some_2 chunks i) as [prev Hprev].
          { apply lookup_lt_Some in Hc. lia. }
          pose proof (offsets_adj _ _ _ Hprev Hc) as Hrefl.
          apply fle_refl_r in Hrefl.
          repeat split.
          * repeat constructor.
          * now repeat constructor.
          * intros chunk' Hc'. repeat constructor.
            eapply offsets_adj; eassumption.
      - repeat split; [assumption..|].
        intros chunk' Hc'. now rewrite Hc' in Hwle. }
    simpl in Hblock. destruct Hblock as (Hbs & Hbge & Hble).
    destruct (chunks !! S i) as [chunk'|] eqn:Hc'.
    + split.
      * apply Sorted_app_mid with (StartOffset chunk'); auto.
      * intros c [= <-]. apply Forall_app. split; [assumption|].
        eapply Forall_impl; [apply (IHge chunk' eq_refl)|].
        intros t Ht. apply fle_trans with (StartOffset chunk'); [|exact Ht].
        eapply offsets_adj; eassumption.
    + assert (Hnil : emittedFrom (S i) rest chunks = []).
      { destruct rest; simpl; [reflexivity|now rewrite Hc']. }
      rewrite Hnil, app_nil_r. split; [assumption|].
      now intros c [= <-].
Qed.

End MergedOrder.

(** C10, as the program has it.  Let the start offsets of the chunks be
    non-decreasing and let, within every chunk, the corrected starts be
    non-decreasing and lie between the start offset of the chunk and that
    of the next chunk.  Then the start times of the merged transcript are
    non-decreasing. *)
Theorem mergeResults_starts_sorted (results : list TranscriptionResult)
  (chunks : list AudioChunk) :
  (length results <= length chunks)%nat ->
  Sorted fle (map StartOffset chunks) ->
  (forall i result chunk,
      results !! i = Some result -> chunks !! i = Some chunk ->
      inChunkWindow result chunk (chunks !! S i)) ->
  exists merged,
    mergeResults results chunks = Some merged
    /\ Sorted fle (map Start (Segments merged)).
Proof.
  intros Hlen Hoff Hwin.
  destruct (mergeLoop_total chunks results 0 mergeInit Hlen) as [st Hrun].
  assert (Hm : mergeResults results chunks
               = Some (mkResult (totalText st) (mLanguage st) (mSegments st)
                         (match last (mSegments st) with
                          | Some seg => End_ seg
                          | None => 0%float
                          end)))
    by (unfold mergeResults; now rewrite Hrun).
  eexists. split; [exact Hm|].
  pose proof (mergeResults_Some _ _ _ Hm) as Hsegs. simpl in Hsegs |- *.
  replace (map Start (mSegments st))
    with (map startOf (map payload (mSegments st)))
    by (rewrite map_map; reflexivity).
  rewrite Hsegs, payload_number.
  now apply (emittedFrom_sorted chunks Hoff results 0).
Qed.

Lemma mergeResults_starts_sorted_witness :
  exists merged,
    mergeResults example_results example_chunks = Some merged
    /\ Sorted fle (map Start (Segments merged)).
Proof.
  apply (mergeResults_starts_sorted example_results example_chunks).
  - simpl. lia.
  - repeat constructor.
  - intros [|[|[|i]]] result chunk Hr Hc; simpl in Hr, Hc;
      try discriminate; injection Hr as <-; injection Hc as <-;
      unfold inChunkWindow, correctedStarts; simpl;
      repeat split; repeat constructor.
Defined.

(** C10, as the specification words it, fails: the start offsets 0 and 95
    are non-decreasing, yet a segment that starts at 100 in the first
    chunk is followed by one that starts at 95 in the second. *)
Lemma mergeResults_starts_out_of_order :
  Sorted fle (map StartOffset unordered_chunks)
  /\ option_map (fun merged => map Start (Segments merged))
       (mergeResults unordered_results unordered_chunks)
     = Some [100; 95]%float
  /\ (100 <=? 95)%float = false.
Proof.
  split; [repeat constructor|]. split; vm_compute; reflexivity.
Qed.

(** ** formatSRTTime *)

(** C7. [formatSRTTime(3661.234)] is ["01:01:01,233"], not
    ["01:01:01,234"]: the [float64] nearest to 3661.234 lies just below it,
    so the fraction times 1000 is 233.99999999992 and the conversion to
    [int] drops the fraction.  A timestamp that is a [float64] exactly,
    such as 3661.25, is rendered as expected. *)
Theorem formatSRTTime_truncates_milliseconds :
  formatSRTTime 3661.234%float = "01:01:01,233"
  /\ ((3661.234 - 3661) * 1000 <? 234)%float = true
  /\ formatSRTTime 3661.25%float = "01:01:01,250".
Proof. repeat split; vm_compute; reflexivity. Qed.

(** ** isVideoFile and generateOutputPath *)

Lemma isVideoFile_elem (filename : string) :
  isVideoFile filename = true
  <-> GoStrings.ToLower (GoPath.Ext filename) ∈ videoExts.
Proof.
  unfold isVideoFile. rewrite existsb_exists. split.
  - intros (ve & Hin & He). apply String.eqb_eq in He. subst ve.
    now apply list_elem_of_In.
  - intros Hin. eexists. split; [apply list_elem_of_In, Hin|].
    apply String.eqb_refl.
Qed.

(** X2.  A file whose name ends in a dot and an extension [e] of ASCII
    bytes is taken for a video exactly when [e], in lower case, is one of
    mp4, avi, mov, mkv, flv, wmv, webm and m4v. *)
Theorem isVideoFile_extension (stem e : string) :
  GoStrings.isASCII e = true ->
  GoStrings.Contains e "." = false ->
  GoStrings.Contains e "/" = false ->
  isVideoFile (stem ++ "." ++ e) = true
  <-> GoStrings.ToLower e
      ∈ ["mp4"; "avi"; "mov"; "mkv"; "flv"; "wmv"; "webm"; "m4v"].
Proof.
  intros _ Hdot Hsep. rewrite isVideoFile_elem, Ext_dot by assumption.
  change (GoStrings.ToLower ("." ++ e)) with ("." ++ GoStrings.ToLower e).
  unfold videoExts. rewrite !elem_of_cons, !elem_of_nil.
  change (String "." ?s) with ("." ++ s).
  split; intros H; repeat destruct H as [H|H]; try contradiction.
  all: first [apply append_inv_head in H; rewrite H | rewrite H]; tauto.
Qed.

Lemma isVideoFile_extension_witness :
  isVideoFile ("lecture 1.final" ++ "." ++ "MkV") = true.
Proof.
  apply (isVideoFile_extension "lecture 1.final" "MkV");
    [reflexivity..|].
  vm_compute. set_solver.
Defined.

(** X3.  Only the last element of a path counts: the directories before
    it, whatever dots they have, do not change the answer, and a last
    element without a dot is no video. *)
Theorem isVideoFile_last_element (dir name : string) :
  GoStrings.Contains name "/" = false ->
  isVideoFile (dir ++ "/" ++ name) = isVideoFile name
  /\ (GoStrings.Contains name "." = false ->
      isVideoFile (dir ++ "/" ++ name) = false).
Proof.
  intros Hsep. unfold isVideoFile.
  rewrite Ext_last_element by assumption. split; [reflexivity|].
  intros Hdot. now rewrite Ext_no_dot.
Qed.

Lemma isVideoFile_last_element_witness :
  isVideoFile ("clips.mp4" ++ "/" ++ "notes") = false.
Proof.
  apply (isVideoFile_last_element "clips.mp4" "notes"); reflexivity.
Defined.

(** X4.  Two names of ASCII bytes that differ in the case of their
    letters only get the same answer. *)
Theorem isVideoFile_ignores_case (a b : string) :
  GoStrings.isASCII a = true -> GoStrings.isASCII b = true ->
  GoStrings.ToLower a = GoStrings.ToLower b ->
  isVideoFile a = isVideoFile b.
Proof.
  intros _ _ Hab. unfold isVideoFile.
  now rewrite <- !Ext_ToLower, Hab.
Qed.

Lemma isVideoFile_ignores_case_witness :
  isVideoFile "Talk.MP4" = isVideoFile "talk.mp4".
Proof.
  apply (isVideoFile_ignores_case "Talk.MP4" "talk.mp4"); reflexivity.
Defined.

(** X5.  For an input [stem.e], with or without directories before it,
    the output file is named [stem_timestamp.ext] and joined to the output
    directory: the directories and the extension of the input are not in
    it.  So two inputs with the same stem are given the same output path
    when the clock reads the same second. *)
Theorem generateOutputPath_stem (timestamp dir stem e outputDir ext : string) :
  GoStrings.Contains stem "/" = false ->
  GoStrings.Contains e "/" = false ->
  GoStrings.Contains e "." = false ->
  let out :=
    GoPath.Join [outputDir; stem ++ "_" ++ timestamp ++ "." ++ ext] in
  generateOutputPath timestamp (dir ++ "/" ++ stem ++ "." ++ e) outputDir ext
  = out
  /\ generateOutputPath timestamp (stem ++ "." ++ e) outputDir ext = out.
Proof.
  intros Hstem He Hdot out.
  assert (Hname : GoStrings.Contains (stem ++ "." ++ e) "/" = false).
  { apply Contains_byte. rewrite !bytes_app. rewrite !Forall_app.
    split; [now apply Contains_byte|]. split; [|now apply Contains_byte].
    now repeat constructor. }
  assert (Hne : stem ++ "." ++ e <> "").
  { intros H. apply (f_equal String.length) in H.
    rewrite !length_append in H. simpl in H. lia. }
  destruct (Base_last_element dir _ Hne Hname) as [H1 H2].
  unfold generateOutputPath. rewrite H1, H2, Ext_dot by assumption.
  rewrite <- append_assoc.
  rewrite TrimSuffix_append, !append_assoc. now split.
Qed.

Lemma generateOutputPath_stem_witness :
  generateOutputPath "20240101_120000"
    ("in" ++ "/" ++ "talk" ++ "." ++ "mp3") "out" "txt"
  = generateOutputPath "20240101_120000"
      ("talk" ++ "." ++ "wav") "out" "txt".
Proof.
  destruct (generateOutputPath_stem "20240101_120000" "in" "talk" "mp3"
              "out" "txt" eq_refl eq_refl eq_refl) as [-> _].
  destruct (generateOutputPath_stem "20240101_120000" "in" "talk" "wav"
              "out" "txt" eq_refl eq_refl eq_refl) as [_ ->].
  reflexivity.
Defined.

(** ** Configuration *)

Section Configuration.

Lemma default_string (s d : string) :
  d <> "" -> (if String.eqb s "" then d else s) <> "".
Proof. intros Hd. now destruct (String.eqb_spec s ""). Qed.

Lemma default_float (x d : float64) :
  (d =? 0)%float = false ->
  ((if (x =? 0)%float then d else x) =? 0)%float = false.
Proof. intros Hd. now destruct (x =? 0)%float eqn:Hx. Qed.

Lemma override_string (flag s : string) :
  s <> "" -> (if negb (String.eqb flag "") then flag else s) <> "".
Proof. intros Hs. now destruct (String.eqb_spec flag ""). Qed.

Lemma setDefaults_filled (c : Conf.Config) :
  let config := setDefaults c in
  Conf.Model config <> "" /\ Conf.Language config <> ""
  /\ Conf.OutputDir config <> "" /\ Conf.SilenceThreshold config <> ""
  /\ (Conf.MaxFileSizeMB config =? 0)%float = false
  /\ (Conf.SilenceDuration config =? 0)%float = false.
Proof.
  cbn. repeat split;
    first [now apply default_string | now apply default_float].
Qed.

Lemma loadConfig_inr (ReadFile : string -> option string)
  (Unmarshal : string -> option Conf.Config) (configPath : string)
  (config : Conf.Config) :
  loadConfig ReadFile Unmarshal configPath = inr config ->
  exists data decoded,
    ReadFile configPath = Some data /\ Unmarshal data = Some decoded
    /\ config = setDefaults decoded.
Proof.
  unfold loadConfig.
  destruct (ReadFile configPath) as [data|]; [|discriminate].
  destruct (Unmarshal data) as [c|] eqn:Hc; [|discriminate].
  intros [= <-]. eauto.
Qed.

End Configuration.

(** X6.  A configuration that [loadConfig] returns has a model, a language,
    an output directory and a silence threshold that are not empty, and a
    size limit and a silence duration that are not zero. *)
Theorem loadConfig_fills_defaults (ReadFile : string -> option string)
  (Unmarshal : string -> option Conf.Config) (configPath : string)
  (config : Conf.Config) :
  loadConfig ReadFile Unmarshal configPath = inr config ->
  Conf.Model config <> "" /\ Conf.Language config <> ""
  /\ Conf.OutputDir config <> "" /\ Conf.SilenceThreshold config <> ""
  /\ (Conf.MaxFileSizeMB config =? 0)%float = false
  /\ (Conf.SilenceDuration config =? 0)%float = false.
Proof.
  intros Hload.
  destruct (loadConfig_inr _ _ _ _ Hload) as (data & c & _ & _ & ->).
  apply setDefaults_filled.
Qed.

Lemma loadConfig_fills_defaults_witness :
  Conf.Model (setDefaults (Conf.mkConfig "http://h" "k" "" "" false "" 0 "" 0))
  <> "".
Proof.
  apply (loadConfig_fills_defaults
           (fun _ => Some "{}")
           (fun _ => Some (Conf.mkConfig "http://h" "k" "" "" false "" 0 "" 0))
           "./config.json").
  reflexivity.
Defined.

(** X7.  [loadConfig] replaces no value that the file gives: the API
    address, the key and the auto-detect switch are returned as decoded,
    and so is each of the other fields that is not empty or zero. *)
Theorem loadConfig_keeps_values (ReadFile : string -> option string)
  (Unmarshal : string -> option Conf.Config) (configPath data : string)
  (decoded config : Conf.Config) :
  ReadFile configPath = Some data ->
  Unmarshal data = Some decoded ->
  loadConfig ReadFile Unmarshal configPath = inr (setDefaults decoded)
  /\ (loadConfig ReadFile Unmarshal configPath = inr config ->
      Conf.APIBaseURL config = Conf.APIBaseURL decoded
      /\ Conf.APIKey config = Conf.APIKey decoded
      /\ Conf.AutoDetect config = Conf.AutoDetect decoded
      /\ (Conf.Model decoded <> "" -> Conf.Model config = Conf.Model decoded)
      /\ (Conf.Language decoded <> ""
          -> Conf.Language config = Conf.Language decoded)
      /\ (Conf.OutputDir decoded <> ""
          -> Conf.OutputDir config = Conf.OutputDir decoded)
      /\ (Conf.SilenceThreshold decoded <> ""
          -> Conf.SilenceThreshold config = Conf.SilenceThreshold decoded)
      /\ ((Conf.MaxFileSizeMB decoded =? 0)%float = false
          -> Conf.MaxFileSizeMB config = Conf.MaxFileSizeMB decoded)
      /\ ((Conf.SilenceDuration decoded =? 0)%float = false
          -> Conf.SilenceDuration config = Conf.SilenceDuration decoded)).
Proof.
  intros Hr Hu. unfold loadConfig. rewrite Hr, Hu. split; [reflexivity|].
  intros [= <-]. cbn.
  repeat split; try (intros H; apply String.eqb_neq in H; now rewrite H).
  all: intros H; now rewrite H.
Qed.

Lemma loadConfig_keeps_values_witness :
  Conf.Model (setDefaults
     (Conf.mkConfig "http://h" "k" "whisper-1" "" true "" 25 "" 0))
  = "whisper-1".
Proof.
  pose (decoded := Conf.mkConfig "http://h" "k" "whisper-1" "" true "" 25 "" 0).
  refine (proj1 (proj2 (proj2 (proj2
    (proj2 (loadConfig_keeps_values (fun _ => Some "{}")
              (fun _ => Some decoded) "./config.json" "{}" decoded
              (setDefaults decoded) eq_refl eq_refl)
       eq_refl)))) _).
  discriminate.
Defined.

(** X8.  After the command line options have been applied to a
    configuration that was loaded, the model, the language and the output
    directory are still not empty; the options cannot switch language
    detection off, and they leave the API address and key alone. *)
Theorem overrideConfig_keeps_filled (ReadFile : string -> option string)
  (Unmarshal : string -> option Conf.Config) (configPath : string)
  (config : Conf.Config) (language model outputDir : string)
  (autoDetect : bool) :
  loadConfig ReadFile Unmarshal configPath = inr config ->
  let final := overrideConfig language model outputDir autoDetect config in
  Conf.Model final <> "" /\ Conf.Language final <> ""
  /\ Conf.OutputDir final <> ""
  /\ (Conf.AutoDetect config = true -> Conf.AutoDetect final = true)
  /\ Conf.APIKey final = Conf.APIKey config
  /\ Conf.APIBaseURL final = Conf.APIBaseURL config.
Proof.
  intros Hload final.
  destruct (loadConfig_inr _ _ _ _ Hload) as (data & c & _ & _ & ->).
  destruct (setDefaults_filled c) as (H1 & H2 & H3 & _).
  subst final. unfold overrideConfig.
  cbn [Conf.Model Conf.Language Conf.OutputDir Conf.AutoDetect Conf.APIKey
       Conf.APIBaseURL].
  repeat split; try now apply override_string.
  intros ->. now destruct autoDetect.
Qed.

Lemma overrideConfig_keeps_filled_witness :
  Conf.Language
    (overrideConfig "" "whisper-1" "" false
       (setDefaults (Conf.mkConfig "http://h" "k" "" "" true "" 0 "" 0)))
  <> "".
Proof.
  apply (overrideConfig_keeps_filled
           (fun _ => Some "{}")
           (fun _ => Some (Conf.mkConfig "http://h" "k" "" "" true "" 0 "" 0))
           "./config.json" _ "" "whisper-1" "" false eq_refl).
Defined.

(** ** Transcriber *)

Section Transcription.

Local Open Scope nat_scope.

Variable Open : string -> bool.
Variable CreateTranscription : AudioRequest -> option AudioResponse.
Variables model language : string.
Variable autoDetect : bool.

Local Abbreviation transcribe :=
  (fun chunk : AudioChunk =>
     transcribeAudio Open CreateTranscription (Path chunk) model language
       autoDetect).

Lemma request_language :
  (if negb autoDetect && negb (String.eqb language "") then language else "")
  = if autoDetect then "" else language.
Proof.
  destruct autoDetect; [reflexivity|].
  now destruct (String.eqb_spec language "") as [->|].
Qed.

Lemma imap_toSegment (segs : list ResponseSegment) (k : nat) :
  (Z.of_nat (k + length segs) <= int_max)%Z ->
  imap (fun i => toSegment (k + i)) segs
  = number (Z.of_nat k + 1)
      (map (fun seg => (respStart seg, respEnd seg, respSegText seg)) segs).
Proof.
  revert k. induction segs as [|seg segs IH]; intros k Hk; [reflexivity|].
  cbn [imap map number length] in *. f_equal.
  - unfold toSegment. f_equal. rewrite Nat.add_0_r.
    unfold wrap_int, int_max in *. rewrite Z.mod_small by lia. lia.
  - destruct segs as [|seg' segs]; [reflexivity|].
    cbn [length] in Hk.
    rewrite int_succ_small by (unfold int_max in *; lia).
    replace (Z.of_nat k + 1 + 1)%Z with (Z.of_nat (S k) + 1)%Z by lia.
    rewrite <- IH by (cbn [length]; lia). apply imap_ext. intros i x _. cbn.
    f_equal. lia.
Qed.

Lemma payload_toSegment (segs : list ResponseSegment) (k : nat) :
  map payload (imap (fun i => toSegment (k + i)) segs)
  = map (fun seg => (respStart seg, respEnd seg, respSegText seg)) segs.
Proof.
  revert k. induction segs as [|seg segs IH]; intros k; [reflexivity|].
  cbn [imap map]. f_equal. rewrite <- (IH (S k)). f_equal.
  apply imap_ext. intros i x _. cbn. f_equal. lia.
Qed.

Lemma transcribeLoop_inr (rest : list AudioChunk) :
  forall (i : nat) (results results' : list (option TranscriptionResult))
         (done : list TranscriptionResult),
    length results = i + length rest ->
    take i results = Some <$> done ->
    transcribeLoop Open CreateTranscription model language autoDetect
      i rest results = inr results' ->
    exists rs,
      results' = Some <$> (done ++ rs)%list
      /\ Forall2 (fun chunk r => transcribe chunk = inr r) rest rs.
Proof.
  induction rest as [|chunk rest IH]; intros i results results' done Hlen Hdone.
  - cbn [transcribeLoop]. intros [= <-]. exists []. split; [|constructor].
    rewrite app_nil_r, <- Hdone. symmetry. apply take_ge. simpl in Hlen. lia.
  - cbn [transcribeLoop].
    destruct (transcribeAudio _ _ (Path chunk) _ _ _) as [e|r] eqn:Hr;
      [discriminate|].
    cbn [length] in Hlen. intros Hrun.
    apply (IH (S i) _ _ (done ++ [r])%list) in Hrun as (rs & -> & Hrs).
    + exists (r :: rs). split; [now rewrite <- app_assoc|].
      now constructor.
    + rewrite length_insert. lia.
    + rewrite (take_S_r _ _ (Some r)).
      * rewrite take_insert_ge by lia. now rewrite Hdone, fmap_app.
      * apply list_lookup_insert_eq. lia.
Qed.

Lemma transcribeLoop_inl (rest : list AudioChunk) :
  forall (i k : nat) (e : transcribeError)
         (results : list (option TranscriptionResult)),
    transcribeLoop Open CreateTranscription model language autoDetect
      i rest results = inl (k, e) ->
    exists j chunk,
      k = S (i + j) /\ rest !! j = Some chunk /\ transcribe chunk = inl e
      /\ forall j' chunk', j' < j -> rest !! j' = Some chunk' ->
           exists r, transcribe chunk' = inr r.
Proof.
  induction rest as [|chunk rest IH]; intros i k e results;
    cbn [transcribeLoop]; [discriminate|].
  destruct (transcribeAudio _ _ (Path chunk) _ _ _) as [e'|r] eqn:Hr.
  - intros [= <- <-]. exists 0, chunk.
    split; [lia|]. split; [reflexivity|]. split; [exact Hr|].
    intros j' chunk' Hj'. lia.
  - intros Hrun. apply IH in Hrun as (j & c & -> & Hc & He & Hbefore).
    exists (S j), c. split; [lia|]. split; [exact Hc|]. split; [exact He|].
    intros [|j'] chunk' Hj' Hc'.
    + injection Hc' as <-. eauto.
    + apply (Hbefore j'); [lia|exact Hc'].
Qed.

Lemma transcribeMultipleChunks_inr (chunks : list AudioChunk)
  (results : list (option TranscriptionResult)) :
  transcribeMultipleChunks Open CreateTranscription chunks model language
    autoDetect = inr results ->
  exists rs,
    results = Some <$> rs
    /\ Forall2 (fun chunk r => transcribe chunk = inr r) chunks rs.
Proof.
  unfold transcribeMultipleChunks. intros Hrun.
  apply (transcribeLoop_inr _ _ _ _ []) in Hrun; [exact Hrun| |reflexivity].
  now rewrite length_replicate.
Qed.

End Transcription.

(** X9.  When [transcribeAudio] returns a result, the request it sent
    carries no language under automatic detection and the given language
    otherwise; the result has the text and the language of the response
    and its segments with their start, end and text, and the segments are
    numbered 1, 2, ... in their order, whatever ids the response gives
    them. *)
Theorem transcribeAudio_result (Open : string -> bool)
  (CreateTranscription : AudioRequest -> option AudioResponse)
  (audioPath model language : string) (autoDetect : bool)
  (result : TranscriptionResult) :
  transcribeAudio Open CreateTranscription audioPath model language
    autoDetect = inr result ->
  exists resp,
    CreateTranscription
      (mkRequest model audioPath (if autoDetect then "" else language))
    = Some resp
    /\ Text result = respText resp
    /\ Language result = respLanguage resp
    /\ map payload (Segments result)
       = map (fun seg => (respStart seg, respEnd seg, respSegText seg))
             (respSegments resp)
    /\ (Z.of_nat (length (respSegments resp)) < int_max ->
        map ID (Segments result) = ids_upto (length (respSegments resp))).
Proof.
  unfold transcribeAudio. destruct (Open audioPath); [|discriminate].
  rewrite request_language.
  destruct (CreateTranscription _) as [resp|] eqn:Hresp; [|discriminate].
  intros [= <-]. exists resp. cbn [Text Language Segments].
  split; [reflexivity|]. split; [reflexivity|]. split; [reflexivity|].
  split; [exact (payload_toSegment _ 0)|].
  intros Hlen.
  replace (imap toSegment (respSegments resp))
    with (number 1
            (map (fun seg => (respStart seg, respEnd seg, respSegText seg))
                 (respSegments resp)))
    by (symmetry; apply (imap_toSegment _ 0); simpl; lia).
  rewrite ids_number;
    [|lia|rewrite length_map; unfold int_max in *; lia].
  rewrite length_map. unfold ids_upto. rewrite <- seq_shift, map_map.
  apply map_ext. intros k. lia.
Qed.

(** X10.  [transcribeMultipleChunks] returns either one result per chunk,
    none of them [nil], each the transcription of its chunk, in order; or
    the error of the first chunk whose transcription fails, with its
    number counted from 1, every chunk before it having been
    transcribed. *)
Theorem transcribeMultipleChunks_outcome (Open : string -> bool)
  (CreateTranscription : AudioRequest -> option AudioResponse)
  (chunks : list AudioChunk) (model language : string) (autoDetect : bool) :
  let transcribe chunk :=
    transcribeAudio Open CreateTranscription (Path chunk) model language
      autoDetect in
  match transcribeMultipleChunks Open CreateTranscription chunks model
          language autoDetect with
  | inr results =>
      exists rs,
        results = Some <$> rs
        /\ Forall2 (fun chunk r => transcribe chunk = inr r) chunks rs
  | inl (k, e) =>
      exists chunk,
        (0 < k)%nat /\ chunks !! (k - 1)%nat = Some chunk
        /\ transcribe chunk = inl e
        /\ forall j chunk', (j < k - 1)%nat -> chunks !! j = Some chunk' ->
             exists r, transcribe chunk' = inr r
  end.
Proof.
  intros transcribe.
  destruct (transcribeMultipleChunks _ _ _ _ _ _) as [[k e]|results] eqn:Hrun.
  - unfold transcribeMultipleChunks in Hrun.
    apply transcribeLoop_inl in Hrun as (j & chunk & -> & Hc & He & Hbefore).
    exists chunk. replace (S (0 + j) - 1)%nat with j by lia.
    split; [lia|]. split; [exact Hc|]. split; [exact He|]. exact Hbefore.
  - now apply transcribeMultipleChunks_inr.
Qed.

(** X11.  The results that [transcribeMultipleChunks] returns for a list of
    chunks can be merged with these chunks: there is a chunk for every
    result and no result is [nil], so [mergeResults] returns. *)
Theorem transcribed_chunks_merge (Open : string -> bool)
  (CreateTranscription : AudioRequest -> option AudioResponse)
  (chunks : list AudioChunk) (model language : string) (autoDetect : bool)
  (results : list (option TranscriptionResult)) :
  transcribeMultipleChunks Open CreateTranscription chunks model language
    autoDetect = inr results ->
  exists rs merged,
    results = Some <$> rs
    /\ length rs = length chunks
    /\ mergeResults rs chunks = Some merged.
Proof.
  intros Hrun.
  apply transcribeMultipleChunks_inr in Hrun as (rs & -> & Hrs).
  apply Forall2_length in Hrs.
  destruct (mergeLoop_total chunks rs 0%nat mergeInit) as [st Hst];
    [simpl; lia|].
  exists rs. eexists. split; [reflexivity|]. split; [congruence|].
  unfold mergeResults. now rewrite Hst.
Qed.

Lemma transcribed_chunks_merge_witness :
  exists rs merged,
    [Some (mkResult "hi" "en" [mkSegment 1 0 1 "hi"] 0);
     Some (mkResult "hi" "en" [mkSegment 1 0 1 "hi"] 0)] = Some <$> rs
    /\ length rs = 2%nat
    /\ mergeResults rs [mkChunk "a.wav" 0; mkChunk "b.wav" 95] = Some merged.
Proof.
  apply (transcribed_chunks_merge (fun _ => true)
           (fun _ => Some (mkResponse "hi" "en"
                             [mkResponseSegment 0 0 1 "hi"]))
           [mkChunk "a.wav" 0; mkChunk "b.wav" 95] "whisper-1" "en" false).
  reflexivity.
Defined.

Lemma transcribeAudio_result_witness :
  exists resp,
    Some (mkResponse "hi" "en" [mkResponseSegment 7 0 1 "hi"]) = Some resp
    /\ "hi" = respText resp /\ "en" = respLanguage resp
    /\ [(0%float, 1%float, "hi")]
       = map (fun seg => (respStart seg, respEnd seg, respSegText seg))
             (respSegments resp)
    /\ (Z.of_nat (length (respSegments resp)) < int_max ->
        [1] = ids_upto (length (respSegments resp))).
Proof.
  apply (transcribeAudio_result (fun _ => true)
           (fun _ => Some (mkResponse "hi" "en"
                             [mkResponseSegment 7 0 1 "hi"]))
           "a.wav" "whisper-1" "en" true
           (mkResult "hi" "en" [mkSegment 1 0 1 "hi"] 0)).
  reflexivity.
Defined.

(** ** Chunk files: createAudioChunks, cleanupChunks and splitAudioBySilence *)

Section ChunkFiles.

Local Open Scope nat_scope.

Variable tempDir : string.
Variable now : nat -> Z.
Variable ffmpeg : ExtractCmd -> ffmpegExit.
Variable audioPath : string.

(** A run of the loop that ends without error has appended one chunk per
    split point: the chunks start where the one before ends, their files
    have been added, and their paths are those of the indices from [i]
    on. *)
Lemma extractLoop_inr (rest : list float64) :
  forall (i : nat) (startTime s : float64) (chunks chunks' : list AudioChunk)
         (fs fs' : gset string),
    extractLoop tempDir now ffmpeg audioPath i rest startTime chunks fs
    = (fs', inr (s, chunks')) ->
    exists new,
      chunks' = (chunks ++ new)%list
      /\ fs' = fs ∪ list_to_set (Path <$> new)
      /\ ((StartOffset <$> new) ++ [s])%list = startTime :: rest
      /\ Path <$> new = chunkPath tempDir now <$> seq i (length rest).
Proof.
  induction rest as [|endTime rest IH];
    intros i startTime s chunks chunks' fs fs'; cbn [extractLoop].
  - intros [= <- <- <-]. exists []. rewrite app_nil_r.
    split; [reflexivity|]. split; [set_solver|]. now split.
  - destruct (ffmpeg _) as [|wrote]; [|discriminate]. cbn [afterRun].
    intros Hrun. apply IH in Hrun as (new & -> & -> & Hoff & Hpaths).
    exists (mkChunk (chunkPath tempDir now i) startTime :: new).
    split; [now rewrite <- app_assoc|]. split; [set_solver|].
    split; cbn; [now rewrite Hoff|now rewrite Hpaths].
Qed.

(** The chunks that [createAudioChunks] returns: their files have been
    added, their paths are those of the indices from 0 on, and they start
    at 0 and at the split points. *)
Lemma createAudioChunks_inr (probe : option float64)
  (splitTimes : list float64) (fs fs' : gset string)
  (chunks : list AudioChunk) :
  createAudioChunks tempDir now probe ffmpeg audioPath splitTimes fs
  = (fs', inr chunks) ->
  fs' = fs ∪ list_to_set (Path <$> chunks)
  /\ Path <$> chunks = chunkPath tempDir now <$> seq 0 (length chunks)
  /\ exists s,
       ((StartOffset <$> take (length splitTimes) chunks) ++ [s])%list
       = 0%float :: splitTimes
       /\ length splitTimes <= length chunks
       /\ if (s <? default 0 probe)%float
          then StartOffset <$> chunks = 0%float :: splitTimes
          else length chunks = length splitTimes.
Proof.
  unfold createAudioChunks.
  destruct (extractLoop _ _ _ _ _ _ _ _ _) as [fs1 [e|[s chunks1]]] eqn:Hloop;
    [discriminate|].
  apply extractLoop_inr in Hloop as (new & Hnew & -> & Hoff & Hpaths).
  cbn [app] in Hnew. subst chunks1.
  assert (Hlen : length new = length splitTimes).
  { apply (f_equal length) in Hpaths.
    now rewrite !length_fmap, length_seq in Hpaths. }
  destruct (s <? default 0%float probe)%float eqn:Hlast.
  - destruct (ffmpeg _) as [|wrote]; [|discriminate]. cbn [afterRun].
    intros [= <- <-].
    split; [rewrite fmap_app; set_solver|]. split.
    { rewrite fmap_app, length_app, Hpaths, Hlen. cbn [length fmap list_fmap].
      now rewrite Nat.add_1_r, seq_S, fmap_app. }
    exists s. rewrite <- Hlen, take_app_length, Hlen, length_app, Hlast.
    split; [exact Hoff|]. split; [lia|].
    rewrite fmap_app. exact Hoff.
  - intros [= <- <-]. split; [reflexivity|]. split; [now rewrite Hpaths, Hlen|].
    exists s. rewrite <- Hlen, firstn_all, Hlast. now split.
Qed.

End ChunkFiles.

(** X12.  When [createAudioChunks] returns chunks, the files it has added
    are those of the chunks, no two chunks share a file, and
    [cleanupChunks] removes them again: afterwards none of them is
    there, and a file system that had none of these paths before is as it
    was. *)
Theorem cleanupChunks_after_create (tempDir : string) (now : nat -> Z)
  (probe : option float64) (ffmpeg : ExtractCmd -> ffmpegExit)
  (audioPath : string) (splitTimes : list float64) (fs fs' : gset string)
  (chunks : list AudioChunk) :
  createAudioChunks tempDir now probe ffmpeg audioPath splitTimes fs
  = (fs', inr chunks) ->
  let paths : gset string := list_to_set (Path <$> chunks) in
  fs' = fs ∪ paths
  /\ NoDup (Path <$> chunks)
  /\ cleanupChunks chunks fs' = fs ∖ paths
  /\ (forall chunk, chunk ∈ chunks -> Path chunk ∉ cleanupChunks chunks fs')
  /\ (fs ## paths -> cleanupChunks chunks fs' = fs).
Proof.
  intros Hrun. cbv zeta.
  apply createAudioChunks_inr in Hrun as (-> & Hpaths & _).
  set (paths := list_to_set (Path <$> chunks) : gset string).
  assert (Hclean : cleanupChunks chunks (fs ∪ paths) = fs ∖ paths).
  { transitivity (removeChunks chunks (fs ∪ paths)); [reflexivity|].
    rewrite removeChunks_spec. fold paths. set_solver. }
  split; [reflexivity|]. split.
  { rewrite Hpaths. apply NoDup_fmap_2; [|apply NoDup_seq].
    intros i j. apply chunkPath_inj. }
  split; [exact Hclean|]. split.
  - intros chunk Hin. rewrite Hclean.
    assert (Path chunk ∈ paths); [|set_solver].
    apply elem_of_list_to_set, list_elem_of_fmap. eauto.
  - intros Hdisj. rewrite Hclean. set_solver.
Qed.

Lemma cleanupChunks_after_create_witness :
  cleanupChunks
    (chunkOf "/tmp" example_now [95; 205]%float <$> seq 0 3)
    (∅ ∪ chunkFiles "/tmp" example_now 3)
  = ∅ ∖ list_to_set
          (Path <$> (chunkOf "/tmp" example_now [95; 205]%float <$> seq 0 3)).
Proof.
  refine (proj1 (proj2 (proj2
    (cleanupChunks_after_create "/tmp" example_now (Some 300%float)
       (fun _ => Done) "talk.wav" [95; 205]%float ∅ _ _ _)))).
  vm_compute. reflexivity.
Defined.

Section Blanks.

Import GoStrings.

Lemma TrimLeft_blank (ws s : string) :
  blank ws = true -> TrimLeft (ws ++ s) = TrimLeft s.
Proof.
  induction ws as [|c ws IH]; [reflexivity|].
  cbn [blank]. intros [Hc Hws]%andb_true_iff.
  rewrite append_cons. cbn [TrimLeft]. rewrite Hc. now apply IH.
Qed.

Lemma TrimRight_blank (ws : string) : blank ws = true -> TrimRight ws = "".
Proof.
  induction ws as [|c ws IH]; [reflexivity|].
  cbn [blank]. intros [Hc Hws]%andb_true_iff.
  cbn [TrimRight]. now rewrite IH, Hc.
Qed.

Lemma TrimRight_app_blank (s ws : string) :
  blank ws = true -> TrimRight (s ++ ws) = TrimRight s.
Proof.
  intros Hws. induction s as [|c s IH].
  - now apply TrimRight_blank.
  - rewrite append_cons. cbn [TrimRight]. now rewrite IH.
Qed.

Lemma TrimLeft_nonblank (s ws : string) :
  blank s = false -> TrimLeft (s ++ ws) = TrimLeft s ++ ws.
Proof.
  induction s as [|c s IH]; [discriminate|].
  cbn [blank]. rewrite append_cons. cbn [TrimLeft].
  destruct (isSpace c); [exact IH|reflexivity].
Qed.

Lemma TrimLeft_all_blank (s : string) : blank s = true -> TrimLeft s = "".
Proof.
  induction s as [|c s IH]; [reflexivity|].
  cbn [blank TrimLeft]. intros [-> Hs]%andb_true_iff. now apply IH.
Qed.

Lemma blank_app (s t : string) : blank (s ++ t) = blank s && blank t.
Proof.
  induction s as [|c s IH]; [reflexivity|].
  rewrite append_cons. cbn [blank]. now rewrite IH, andb_assoc.
Qed.

(** Blanks at either end do not survive [TrimSpace]. *)
Lemma TrimSpace_blanks (lead s trail : string) :
  blank lead = true -> blank trail = true ->
  TrimSpace (lead ++ s ++ trail) = TrimSpace s.
Proof.
  intros Hl Ht. unfold TrimSpace. rewrite TrimLeft_blank by assumption.
  destruct (blank s) eqn:Hs.
  - rewrite !TrimLeft_all_blank; [reflexivity|assumption|].
    now rewrite blank_app, Hs, Ht.
  - rewrite TrimLeft_nonblank by assumption. now apply TrimRight_app_blank.
Qed.

End Blanks.

(** X13.  Blanks and line breaks before and after what ffprobe prints do
    not change the duration that [getAudioDuration] reads, whatever the
    scanner; an output of blanks only is an error. *)
Theorem getAudioDuration_blanks :
  (forall (scan : string -> option float64) (lead out trail : string),
      blank lead = true -> blank trail = true ->
      getAudioDuration scan (Some (lead ++ out ++ trail))
      = getAudioDuration scan (Some out))
  /\ (forall out : string,
        blank out = true ->
        getAudioDuration GoFmt.Sscanf_f (Some out) = None).
Proof.
  split.
  - intros scan lead out trail Hl Ht. unfold getAudioDuration.
    now rewrite TrimSpace_blanks.
  - intros out Hout. unfold getAudioDuration, GoStrings.TrimSpace.
    now rewrite (TrimLeft_all_blank out Hout).
Qed.

Lemma getAudioDuration_blanks_witness :
  getAudioDuration GoFmt.Sscanf_f
    (Some (" " ++ "541.000000" ++ GoStrings.newline))
  = getAudioDuration GoFmt.Sscanf_f (Some "541.000000").
Proof.
  apply (proj1 getAudioDuration_blanks GoFmt.Sscanf_f " " "541.000000"
           GoStrings.newline); reflexivity.
Defined.



(** ** Merged outputs: language, saveTXT and saveSRT *)

Section Outputs.

Local Open Scope nat_scope.

Lemma fold_left_append {A : Type} (f : A -> string) (l : list A) :
  forall init : string,
    fold_left (fun acc x => acc ++ f x) l init = init ++ joined (map f l).
Proof.
  induction l as [|x l IH]; intros init; cbn [fold_left map joined fold_right].
  - now rewrite append_nil_r.
  - rewrite IH. apply append_assoc.
Qed.

Lemma fold_left_lines (segs : list Segment) :
  forall init : string,
    fold_left (fun txt seg => (txt ++ SegText seg) ++ GoStrings.newline)
              segs init
    = init ++ joined (map (fun seg => SegText seg ++ GoStrings.newline) segs).
Proof.
  induction segs as [|seg segs IH]; intros init;
    cbn [fold_left map joined fold_right].
  - now rewrite append_nil_r.
  - now rewrite IH, !append_assoc.
Qed.

Lemma txtContent_segments (result : TranscriptionResult) :
  Segments result <> [] ->
  txtContent result
  = joined (map (fun seg => SegText seg ++ GoStrings.newline)
                (Segments result)).
Proof.
  intros Hne. unfold txtContent.
  destruct (Segments result) as [|seg segs] eqn:Hs; [congruence|].
  cbn [length Nat.ltb Nat.leb]. exact (fold_left_lines _ "").
Qed.

Lemma srtContent_cues (result : TranscriptionResult) :
  srtContent result = joined (map srtCue (Segments result)).
Proof. apply (fold_left_append srtCue). Qed.

(** The segments numbered from [id] on, when the counter does not wrap. *)
Lemma number_imap (ps : list (float64 * float64 * string)) :
  forall id : Z,
    (0 <= id)%Z -> (id + Z.of_nat (length ps) <= int_max)%Z ->
    number id ps
    = imap (fun k p => mkSegment (id + Z.of_nat k) (fst (fst p))
                         (snd (fst p)) (snd p)) ps.
Proof.
  induction ps as [|p ps IH]; intros id H0 Hmax; [reflexivity|].
  cbn [number imap length] in *. f_equal.
  - f_equal. lia.
  - rewrite int_succ_small by lia. rewrite IH by lia.
    apply imap_ext. intros k q _. cbn. f_equal. lia.
Qed.

Lemma map_imap {A B C : Type} (g : B -> C) (l : list A) :
  forall f : nat -> A -> B,
    map g (imap f l) = imap (fun k x => g (f k x)) l.
Proof.
  induction l as [|x l IH]; intros f; [reflexivity|].
  cbn [imap map]. f_equal. apply IH.
Qed.

Lemma emittedFrom_two (r0 r1 : TranscriptionResult)
  (rest : list TranscriptionResult) (chunks : list AudioChunk) :
  2 + length rest <= length chunks ->
  emittedFrom 0 (r0 :: r1 :: rest) chunks <> [].
Proof.
  intros Hlen. cbn [emittedFrom].
  destruct (lookup_lt_is_Some_2 chunks 0) as [c0 ->]; [lia|].
  destruct (lookup_lt_is_Some_2 chunks 1) as [c1 ->]; [lia|].
  intros H. apply app_eq_nil in H as [_ H]. apply app_eq_nil in H as [H _].
  unfold emitted in H. destruct (Segments r1); discriminate.
Qed.

(** The merged language is the first one that is not empty. *)
Lemma mergeLoop_language (chunks : list AudioChunk)
  (results : list TranscriptionResult) :
  forall (i : nat) (st st' : mergeState),
    mergeLoop chunks i results st = Some st' ->
    mLanguage st'
    = if String.eqb (mLanguage st) ""
      then hd "" (List.filter (fun l => negb (String.eqb l ""))
                              (map Language results))
      else mLanguage st.
Proof.
  induction results as [|result rest IH]; intros i st st' Hrun;
    cbn [mergeLoop map List.filter] in *.
  - injection Hrun as <-. now destruct (String.eqb_spec (mLanguage st) "").
  - destruct (chunks !! i) as [chunk|]; [|discriminate].
    rewrite (IH _ _ _ Hrun). unfold mergeOne. cbn [mLanguage].
    destruct (String.eqb_spec (mLanguage st) "") as [He|Hne];
      destruct (String.eqb_spec (Language result) "") as [Hl|Hl];
      cbn [andb negb hd].
    + now rewrite He.
    + apply String.eqb_neq in Hl. now rewrite Hl.
    + apply String.eqb_neq in Hne. now rewrite Hne.
    + apply String.eqb_neq in Hne. now rewrite Hne.
Qed.

End Outputs.

(** X15.  The language of a merged transcript is the language of the
    first result that has one, and empty when no result has one. *)
Theorem mergeResults_language (results : list TranscriptionResult)
  (chunks : list AudioChunk) (merged : TranscriptionResult) :
  mergeResults results chunks = Some merged ->
  Language merged
  = hd "" (List.filter (fun l => negb (String.eqb l ""))
                       (map Language results)).
Proof.
  unfold mergeResults.
  destruct (mergeLoop chunks 0 results mergeInit) as [st|] eqn:Hrun;
    [|discriminate].
  intros [= <-]. cbn [Language].
  now rewrite (mergeLoop_language _ _ _ _ _ Hrun).
Qed.

Lemma mergeResults_language_witness :
  exists merged,
    mergeResults [mkResult "a" "" [] 0; mkResult "b" "ja" [] 0;
                  mkResult "c" "en" [] 0]
      example_chunks = Some merged
    /\ Language merged = "ja".
Proof.
  eexists. split; [vm_compute; reflexivity|].
  apply (mergeResults_language
           [mkResult "a" "" [] 0; mkResult "b" "ja" [] 0;
            mkResult "c" "en" [] 0] example_chunks).
  vm_compute. reflexivity.
Defined.



(** X17.  The subtitle file written for a merged transcript has one cue
    per merged segment, in order, numbered 1, 2, ...: each cue gives the
    corrected start and end of its segment and its text. *)
Theorem saveSRT_merged (WriteFile : string -> string -> bool)
  (results : list TranscriptionResult) (chunks : list AudioChunk)
  (merged : TranscriptionResult) (outputPath : string) :
  mergeResults results chunks = Some merged ->
  Z.of_nat (segmentBudget results) < int_max ->
  saveSRT WriteFile merged outputPath
  = WriteFile outputPath
      (joined
         (imap (fun k p =>
                  GoFmt.fmt_d (Z.of_nat k + 1) ++ GoStrings.newline
                  ++ formatSRTTime (fst (fst p)) ++ " --> "
                  ++ formatSRTTime (snd (fst p)) ++ GoStrings.newline
                  ++ snd p ++ GoStrings.newline ++ GoStrings.newline)
               (emittedFrom 0 results chunks))).
Proof.
  intros Hm Hbudget. unfold saveSRT. f_equal.
  rewrite srtContent_cues, (mergeResults_Some _ _ _ Hm).
  pose proof (length_emittedFrom chunks results 0) as Hle.
  rewrite number_imap by lia. f_equal.
  rewrite map_imap. apply imap_ext. intros k p _. unfold srtCue.
  cbn [ID Start End_ SegText]. do 2 f_equal. lia.
Qed.

Lemma saveSRT_merged_witness :
  exists merged,
    mergeResults example_results example_chunks = Some merged
    /\ saveSRT (fun _ content =>
                  GoStrings.HasPrefix content
                    ("1" ++ GoStrings.newline
                     ++ "00:00:00,000 --> 00:00:40,000" ++ GoStrings.newline
                     ++ "one" ++ GoStrings.newline ++ GoStrings.newline
                     ++ "2" ++ GoStrings.newline))
         merged "out/talk.srt" = true.
Proof.
  eexists. split; [vm_compute; reflexivity|].
  rewrite (saveSRT_merged _ example_results example_chunks);
    [vm_compute; reflexivity|vm_compute; reflexivity|vm_compute; reflexivity].
Defined.
